(** * Aperture-correction measurement: [MeasureApCorrTask.run]

    A shallow embedding of [python/lsst/meas/algorithms/measureApCorr.py].

    - numpy's float64 arrays are lists of binary64 floats ([PrimFloat.float]),
      so that NaN and infinities behave as they do in the source;
    - the catalogue is a store of records, and [subset1], [subset2] hold
      references (positions in the store): setting a record's "used" flag
      through [subset2[i]] changes the catalogue's own record;
    - [run] is written in a small state-and-exception monad whose state is the
      catalogue, the log and the trace of calls made to the surface fitter;
    - the polynomial-surface library (lsst.afw.math) is an interface,
      [ChebyshevApi], of which [run] is a client. *)

From Stdlib Require Import ZArith Lia Floats Ascii.
From stdpp Require Import base option list strings gmap.

Local Open Scope Z_scope.

(** ** numpy on one-dimensional arrays *)

Module numpy.

Definition isfinite (f : float) : bool := PrimFloat.is_finite f.

Definition fabs (f : float) : float := PrimFloat.abs f.

(** [a ** 2] on an array squares each element. *)
Definition square (f : float) : float := PrimFloat.mul f f.

Definition float_of_nat (n : nat) : float :=
  PrimFloat.of_uint63 (Uint63.of_Z (Z.of_nat n)).

(** Left-to-right sum.  numpy adds long arrays in blocks; no general
    theorem below depends on the order of the additions. *)
Definition sum (a : list float) : float :=
  fold_left PrimFloat.add a PrimFloat.zero.

(** [numpy.mean]: the sum over the count; NaN (0/0) on an empty array. *)
Definition mean (a : list float) : float :=
  PrimFloat.div (sum a) (float_of_nat (length a)).

(** [m ** 0.5] for a non-negative (or NaN) scalar [m]. *)
Definition pow_half (m : float) : float := PrimFloat.sqrt m.

(** [numpy.logical_and.reduce([r0, r1, ...])]: element-wise conjunction of
    arrays of one length, from the left. *)
Definition logical_and_reduce (rows : list (list bool)) : list bool :=
  match rows with
  | [] => []
  | r :: rest => fold_left (zip_with andb) rest r
  end.

(** [a[keep]] for a boolean array [keep] of the length of [a] (numpy raises
    IndexError for another length; [run] only builds masks of the right
    length, see [clip_wellFormed]). *)
Fixpoint mask {A : Type} (a : list A) (keep : list bool) : list A :=
  match a, keep with
  | v :: a', k :: keep' => if k then v :: mask a' keep' else mask a' keep'
  | _, _ => []
  end.

End numpy.

(** ** Catalogue records and schema keys *)

Definition Key : Type := string.

Record SourceRecord : Type := mkSourceRecord {
  getX : float;
  getY : float;
  getFloat : Key -> float;   (* record.get(key) for a floating-point field *)
  getFlag : Key -> bool      (* record.get(key) for a Flag field *)
}.

(** [record.set(key, value)] for a Flag key. *)
Definition setFlag (k : Key) (v : bool) (r : SourceRecord) : SourceRecord :=
  {| getX := getX r;
     getY := getY r;
     getFloat := getFloat r;
     getFlag := fun k' => if String.eqb k' k then v else getFlag r k' |}.

Global Instance SourceRecord_inhabited : Inhabited SourceRecord :=
  populate {| getX := PrimFloat.zero; getY := PrimFloat.zero;
              getFloat := fun _ => PrimFloat.zero; getFlag := fun _ => false |}.

(** A schema is the list of its field names. *)
Definition Schema : Type := list string.

Record FluxKeys : Type := mkFluxKeys {
  flux : Key;
  err : Key;
  flag : Key;
  used : Key
}.

Definition keysOf (name : string) : FluxKeys :=
  {| flux := name +:+ "_instFlux";
     err := name +:+ "_instFluxErr";
     flag := name +:+ "_flag";
     used := "apcorr_" +:+ name +:+ "_used" |}.

Definition schema_has (schema : Schema) (field : string) : bool :=
  bool_decide (field ∈ schema).

(** [FluxKeys(name, schema)]: [None] is the KeyError of [schema.find]. *)
Definition FluxKeys_init (name : string) (schema : Schema) : option FluxKeys :=
  if schema_has schema (name +:+ "_instFlux")
     && schema_has schema (name +:+ "_instFluxErr")
     && schema_has schema (name +:+ "_flag")
  then Some (keysOf name) else None.

(** ** Configuration *)

(** [ChebyshevBoundedFieldControl]. *)
Record Control : Type := mkControl {
  orderX : Z;
  orderY : Z;
  triangular : bool
}.

Record MeasureApCorrConfig : Type := mkConfig {
  refFluxName : string;
  minDegreesOfFreedom : Z;
  fitConfig : Control;
  numIter : Z;
  numSigmaClip : float;
  allowFailure : list string
}.

(** ** The surface library *)

Class ChebyshevApi (BBox Field : Type) : Type := {
  (** [ChebyshevBoundedField.fit(bbox, x, y, data, ctrl)]; [None] when the
      fitter raises. *)
  fit : BBox -> list float -> list float -> list float -> Control -> option Field;
  (** [field.evaluate] at one point; on arrays it is applied point by point. *)
  evaluate : Field -> float -> float -> float;
  (** [ChebyshevBoundedField(bbox, coefficients)]. *)
  fromCoefficients : BBox -> list (list float) -> Field;
  (** [ctrl.computeSize()]. *)
  computeSize : Control -> Z
}.

(** ** Outcomes, the world, and the monad of [run] *)

Inductive Exn : Type :=
| RuntimeError (name : string) (nSources : nat) (required : Z)
| UnboundLocalError (variable : string)
| FitError.

Inductive Outcome (A : Type) : Type :=
| Returned (a : A)
| Raised (e : Exn)
| Diverged.
Arguments Returned {A} a.
Arguments Raised {A} e.
Arguments Diverged {A}.

Inductive LogEvent : Type :=
| InfoMeasuring (nFields : nat)
| WarnUnable (name : string) (nSources : nat) (required : Z)
| InfoRms (name : string) (rms : float) (nUsed : nat).

(** The arguments of one call of the fitter (the bounding box is the same in
    every call of a run). *)
Record FitCall : Type := mkFitCall {
  fit_x : list float;
  fit_y : list float;
  fit_data : list float;
  fit_ctrl : Control
}.

Record World : Type := mkWorld {
  catalog : list SourceRecord;
  log : list LogEvent;
  fitCalls : list FitCall
}.

Definition M (A : Type) : Type := World -> Outcome A * World.

Definition ret {A : Type} (a : A) : M A := fun w => (Returned a, w).

Definition bind {A B : Type} (m : M A) (k : A -> M B) : M B :=
  fun w =>
    match m w with
    | (Returned a, w') => k a w'
    | (Raised e, w') => (Raised e, w')
    | (Diverged, w') => (Diverged, w')
    end.

Definition raise {A : Type} (e : Exn) : M A := fun w => (Raised e, w).

Definition diverge {A : Type} : M A := fun w => (Diverged, w).

Definition getCatalog : M (list SourceRecord) := fun w => (Returned (catalog w), w).

Definition setCatalog (c : list SourceRecord) : M unit :=
  fun w => (Returned tt, {| catalog := c; log := log w; fitCalls := fitCalls w |}).

Definition logEvent (e : LogEvent) : M unit :=
  fun w => (Returned tt, {| catalog := catalog w; log := log w ++ [e];
                            fitCalls := fitCalls w |}).

Definition recordFit (c : FitCall) : M unit :=
  fun w => (Returned tt, {| catalog := catalog w; log := log w;
                            fitCalls := fitCalls w ++ [c] |}).

Declare Scope run_scope.
Delimit Scope run_scope with run.
Notation "x <- m ;; k" := (bind m (fun x => k))
  (at level 100, m at next level, right associativity) : run_scope.
Notation "m ;;; k" := (bind m (fun _ => k))
  (at level 100, right associativity) : run_scope.

(** ** The task *)

Record Exposure (BBox : Type) : Type := mkExposure { getBBox : BBox }.
Arguments getBBox {BBox}.
Arguments mkExposure {BBox}.

Record MeasureApCorrTask (BBox : Type) : Type := mkTask {
  config : MeasureApCorrConfig;
  refFluxKeys : FluxKeys;
  (** the dict [toCorrect], in insertion order: name prefix, keys *)
  toCorrect : list (string * FluxKeys);
  (** [sourceSelector.run(catalog, exposure=exposure).sourceCat]: references
      to the selected records of the catalogue *)
  sourceSelector : list SourceRecord -> Exposure BBox -> list nat
}.
Arguments config {BBox}.
Arguments refFluxKeys {BBox}.
Arguments toCorrect {BBox}.
Arguments sourceSelector {BBox}.
Arguments mkTask {BBox}.

(** [MeasureApCorrTask.__init__]: a registered name whose flux fields are
    missing from the schema is skipped; a missing reference flux raises. *)
Definition Task_init {BBox : Type} (cfg : MeasureApCorrConfig) (schema : Schema)
    (apCorrNameSet : list string)
    (selector : list SourceRecord -> Exposure BBox -> list nat)
    : option (MeasureApCorrTask BBox) :=
  refKeys ← FluxKeys_init (refFluxName cfg) schema;
  Some {| config := cfg;
          refFluxKeys := refKeys;
          toCorrect := omap (fun name => pair name <$> FluxKeys_init name schema)
                            apCorrNameSet;
          sourceSelector := selector |}.

(** ** The working set of the clip loop *)

Record FitSample : Type := mkFitSample {
  x : list float;
  y : list float;
  apCorrData : list float;
  indices : list nat
}.

(** The rows of a working set, one tuple per retained point. *)
Definition rows (s : FitSample) : list (float * float * float * nat) :=
  zip (zip (zip (x s) (y s)) (apCorrData s)) (indices s).

Definition wellFormed (s : FitSample) : Prop :=
  length (y s) = length (x s)
  /\ length (apCorrData s) = length (x s)
  /\ length (indices s) = length (x s).

(** The local variables of [run] that live across fields. *)
Record Locals (Field : Type) : Type := mkLocals {
  apCorrMap : gmap string Field;
  apCorrErr : option float    (* [None]: the name is not bound yet *)
}.
Arguments apCorrMap {Field}.
Arguments apCorrErr {Field}.
Arguments mkLocals {Field}.

(** ** [MeasureApCorrTask.run] *)

Section Run.
Context {BBox Field : Type} `{!ChebyshevApi BBox Field}.

Local Open Scope run_scope.

(** Lines 209-211: the selected records whose reference flux is unflagged
    and finite.  A reference outside the catalogue (the selector returns
    none) would be dropped here. *)
Definition isRefGood (cat : list SourceRecord) (refKeys : FluxKeys) (ref : nat) : bool :=
  match cat !! ref with
  | Some record =>
      negb (getFlag record (flag refKeys)) && numpy.isfinite (getFloat record (flux refKeys))
  | None => false
  end.

Definition selectSubset1 (task : MeasureApCorrTask BBox) (cat : list SourceRecord)
    (exposure : Exposure BBox) : list nat :=
  filter (fun ref : nat => Is_true (isRefGood cat (refFluxKeys task) ref))
         (sourceSelector task cat exposure).

(** Lines 222-229: [fluxes], [isGood] and [subset2]. *)
Definition fluxesOf (cat : list SourceRecord) (keys : FluxKeys) (subset1 : list nat)
    : list float :=
  (fun ref => getFloat (cat !!! ref) (flux keys)) <$> subset1.

Definition isGoodOf (cat : list SourceRecord) (keys : FluxKeys) (subset1 : list nat)
    : list bool :=
  let fluxes := fluxesOf cat keys subset1 in
  numpy.logical_and_reduce
    [ (fun ref => negb (getFlag (cat !!! ref) (flag keys))) <$> subset1;
      numpy.isfinite <$> fluxes;
      (fun f => PrimFloat.ltb PrimFloat.zero f) <$> fluxes ].

Definition narrow (cat : list SourceRecord) (keys : FluxKeys) (subset1 : list nat)
    : list nat :=
  (filter (fun p : nat * bool => Is_true p.2)
          (zip subset1 (isGoodOf cat keys subset1))).*1.

(** Lines 245-249: the body and the loop that lowers the orders.  The loop
    is run on fuel; [None] is running out of it. *)
Definition underConstrained (n : nat) (minDof : Z) (ctrl : Control) : bool :=
  Z.of_nat n - computeSize ctrl <? minDof.

Definition lowerOrder (ctrl : Control) : Control :=
  let ctrl1 :=
    if 0 <? orderX ctrl
    then {| orderX := orderX ctrl - 1; orderY := orderY ctrl;
            triangular := triangular ctrl |}
    else ctrl in
  if 0 <? orderY ctrl1
  then {| orderX := orderX ctrl1; orderY := orderY ctrl1 - 1;
          triangular := triangular ctrl1 |}
  else ctrl1.

Fixpoint adaptOrder (fuel : nat) (n : nat) (minDof : Z) (ctrl : Control)
    : option Control :=
  if underConstrained n minDof ctrl then
    match fuel with
    | O => None
    | S fuel' => adaptOrder fuel' n minDof (lowerOrder ctrl)
    end
  else Some ctrl.

(** Fuel after which the body no longer changes the control
    (see [adaptOrder_out_of_fuel]): running out of it is a loop that
    never exits. *)
Definition orderFuel (ctrl : Control) : nat :=
  S (Z.to_nat (Z.max (orderX ctrl) (orderY ctrl))).

Definition reduceOrder (n : nat) (minDof : Z) (ctrl : Control) : M Control :=
  match adaptOrder (orderFuel ctrl) n minDof ctrl with
  | Some ctrl' => ret ctrl'
  | None => diverge
  end.

(** Lines 252-259.  The quotient is Python's float division, which is the
    IEEE division whenever the divisor is not zero; the fluxes of [subset2]
    are strictly positive ([narrow_filter]). *)
Definition fillArrays (cat : list SourceRecord) (refKeys keys : FluxKeys)
    (subset2 : list nat) : FitSample :=
  {| x := (fun ref => getX (cat !!! ref)) <$> subset2;
     y := (fun ref => getY (cat !!! ref)) <$> subset2;
     apCorrData :=
       (fun ref => PrimFloat.div (getFloat (cat !!! ref) (flux refKeys))
                                 (getFloat (cat !!! ref) (flux keys))) <$> subset2;
     indices := seq 0 (length subset2) |}.

(** [ChebyshevBoundedField.fit(bbox, x, y, apCorrData, ctrl)]. *)
Definition callFit (bbox : BBox) (s : FitSample) (ctrl : Control) : M Field :=
  recordFit {| fit_x := x s; fit_y := y s; fit_data := apCorrData s;
               fit_ctrl := ctrl |} ;;;
  match fit bbox (x s) (y s) (apCorrData s) ctrl with
  | Some field => ret field
  | None => raise FitError
  end.

(** [field.evaluate(x, y) - apCorrData]. *)
Definition residuals (field : Field) (s : FitSample) : list float :=
  zip_with PrimFloat.sub (zip_with (evaluate field) (x s) (y s)) (apCorrData s).

(** [numpy.mean(diffs**2)**0.5]. *)
Definition rms (diffs : list float) : float :=
  numpy.pow_half (numpy.mean (numpy.square <$> diffs)).

(** [numpy.fabs(apCorrDiffs) <= apCorrDiffLim], element by element. *)
Definition keepOf (apCorrDiffs : list float) (apCorrDiffLim : float) : list bool :=
  (fun d => PrimFloat.leb (numpy.fabs d) apCorrDiffLim) <$> apCorrDiffs.

Definition clip (s : FitSample) (keep : list bool) : FitSample :=
  {| x := numpy.mask (x s) keep;
     y := numpy.mask (y s) keep;
     apCorrData := numpy.mask (apCorrData s) keep;
     indices := numpy.mask (indices s) keep |}.

(** Lines 262-282: one pass of the clip loop; returns the clipped working
    set and the value assigned to [apCorrErr].  The plot of lines 266-267 is
    drawn under the debug flag [display] only and changes no variable. *)
Definition clipIteration (bbox : BBox) (ctrl : Control) (nSigma : float)
    (s : FitSample) : M (FitSample * float) :=
  apCorrField <- callFit bbox s ctrl ;;
  let apCorrDiffs := residuals apCorrField s in
  let apCorrErr := rms apCorrDiffs in
  let apCorrDiffLim := PrimFloat.mul nSigma apCorrErr in
  let keep := keepOf apCorrDiffs apCorrDiffLim in
  ret (clip s keep, apCorrErr).

(** [for _i in range(numIter)]: threads the working set and [apCorrErr]. *)
Fixpoint clipLoop (n : nat) (bbox : BBox) (ctrl : Control) (nSigma : float)
    (s : FitSample) (apCorrErr : option float) : M (FitSample * option float) :=
  match n with
  | O => ret (s, apCorrErr)
  | S n' =>
      r <- clipIteration bbox ctrl nSigma s ;;
      clipLoop n' bbox ctrl nSigma r.1 (Some r.2)
  end.

(** Lines 302-303: [subset2[i].set(keys.used, True)] for the final indices. *)
Definition markOne (keys : FluxKeys) (subset2 : list nat)
    (cat : list SourceRecord) (i : nat) : list SourceRecord :=
  match subset2 !! i with
  | Some ref => alter (setFlag (used keys) true) ref cat
  | None => cat
  end.

Definition markUsed (keys : FluxKeys) (subset2 : list nat) (indices : list nat)
    : M unit :=
  cat <- getCatalog ;;
  setCatalog (fold_left (markOne keys subset2) indices cat).

(** Lines 217-303: the body of the loop over [toCorrect]. *)
Definition correctField (task : MeasureApCorrTask BBox) (bbox : BBox)
    (subset1 : list nat) (name : string) (keys : FluxKeys)
    (loc : Locals Field) : M (Locals Field) :=
  let cfg := config task in
  let fluxName := name +:+ "_instFlux" in
  let fluxErrName := name +:+ "_instFluxErr" in
  cat <- getCatalog ;;
  let subset2 := narrow cat keys subset1 in
  if Z.of_nat (length subset2) - 1 <? minDegreesOfFreedom cfg then
    if bool_decide (name ∈ allowFailure cfg) then
      logEvent (WarnUnable name (length subset2) (minDegreesOfFreedom cfg + 1)) ;;;
      ret loc
    else
      raise (RuntimeError name (length subset2) (minDegreesOfFreedom cfg + 1))
  else
    ctrl <- reduceOrder (length subset2) (minDegreesOfFreedom cfg) (fitConfig cfg) ;;
    let s0 := fillArrays cat (refFluxKeys task) keys subset2 in
    r <- clipLoop (Z.to_nat (numIter cfg)) bbox ctrl (numSigmaClip cfg) s0
                  (apCorrErr loc) ;;
    let s := r.1 in
    apCorrField <- callFit bbox s ctrl ;;
    logEvent (InfoRms name (rms (residuals apCorrField s)) (length (indices s))) ;;;
    match r.2 with
    | None => raise (UnboundLocalError "apCorrErr")
    | Some apCorrErr' =>
        markUsed keys subset2 (indices s) ;;;
        ret {| apCorrMap :=
                 <[fluxErrName := fromCoefficients bbox [[apCorrErr']]]>
                   (<[fluxName := apCorrField]> (apCorrMap loc));
               apCorrErr := Some apCorrErr' |}
    end.

(** [for name, keys in self.toCorrect.items()]. *)
Fixpoint forFields (task : MeasureApCorrTask BBox) (bbox : BBox)
    (subset1 : list nat) (entries : list (string * FluxKeys))
    (loc : Locals Field) : M (Locals Field) :=
  match entries with
  | [] => ret loc
  | (name, keys) :: rest =>
      loc' <- correctField task bbox subset1 name keys loc ;;
      forFields task bbox subset1 rest loc'
  end.

(** The catalogue is the [catalog] of the world the computation runs in. *)
Definition run (task : MeasureApCorrTask BBox) (exposure : Exposure BBox)
    : M (gmap string Field) :=
  let bbox := getBBox exposure in
  logEvent (InfoMeasuring (length (toCorrect task))) ;;;
  cat <- getCatalog ;;
  let subset1 := selectSubset1 task cat exposure in
  loc <- forFields task bbox subset1 (toCorrect task)
                   {| apCorrMap := ∅; apCorrErr := None |} ;;
  ret (apCorrMap loc).

End Run.

(** ** A concrete surface library and catalogue, for evaluating [run]

    At order (0, 0) a least-squares polynomial surface is the constant that
    minimises the squared residuals, the mean of the data.  [ConstantSurface]
    is the library restricted to that order: the fitter refuses any other.
    Its fields are coefficient matrices. *)

Module ConstantSurface.

Definition fit0 (_ : unit) (_ _ : list float) (data : list float) (ctrl : Control)
    : option (list (list float)) :=
  if (orderX ctrl =? 0) && (orderY ctrl =? 0)
  then Some [[numpy.mean data]] else None.

Definition evaluate0 (field : list (list float)) (_ _ : float) : float :=
  match field with
  | (c :: _) :: _ => c
  | _ => PrimFloat.nan
  end.

(** Free parameters of a full (non-triangular) or triangular expansion. *)
Definition computeSize0 (ctrl : Control) : Z :=
  if triangular ctrl
  then
    let lo := Z.min (orderX ctrl) (orderY ctrl) in
    let hi := Z.max (orderX ctrl) (orderY ctrl) in
    (lo + 1) * (lo + 2) / 2 + (lo + 1) * (hi - lo)
  else (orderX ctrl + 1) * (orderY ctrl + 1).

#[export] Instance api : ChebyshevApi unit (list (list float)) :=
  {| fit := fit0;
     evaluate := evaluate0;
     fromCoefficients := fun _ c => c;
     computeSize := computeSize0 |}.

End ConstantSurface.

Module Example.
Import ConstantSurface.

(** A record at (px, py) with reference flux [ref] and flux [f] for the
    algorithm "f"; no flag is set. *)
Definition star (px py ref f : float) : SourceRecord :=
  {| getX := px; getY := py;
     getFloat := fun k =>
       if String.eqb k "ref_instFlux" then ref
       else if String.eqb k "f_instFlux" then f
       else PrimFloat.nan;
     getFlag := fun _ => false |}.

Definition cfg (nIter : Z) (nSigma : float) (allow : list string) : MeasureApCorrConfig :=
  {| refFluxName := "ref";
     minDegreesOfFreedom := 1;
     fitConfig := {| orderX := 0; orderY := 0; triangular := true |};
     numIter := nIter;
     numSigmaClip := nSigma;
     allowFailure := allow |}.

(** The selector picks every record of the catalogue. *)
Definition task (c : MeasureApCorrConfig) : MeasureApCorrTask unit :=
  {| config := c;
     refFluxKeys := keysOf "ref";
     toCorrect := [("f", keysOf "f")];
     sourceSelector := fun cat _ => seq 0 (length cat) |}.

Definition world (cat : list SourceRecord) : World :=
  {| catalog := cat; log := []; fitCalls := [] |}.

(** Four stars of ratio 1 and one of ratio 6. *)
Definition outlierCat : list SourceRecord :=
  [ star 0 0 2 2; star 1 0 2 2; star 2 0 2 2; star 3 0 2 2; star 4 0 12 2 ]%float.

(** One usable star only. *)
Definition singleCat : list SourceRecord := [ star 0 0 2 2 ]%float.

(** Two usable stars. *)
Definition pairCat : list SourceRecord := [ star 0 0 2 2; star 1 0 2 2 ]%float.

(** The field "f" of [outlierCat], one pass, clipping at 1.5 sigma. *)
Definition noLocals : Locals (list (list float)) :=
  {| apCorrMap := ∅; apCorrErr := None |}.

Definition allStars : list nat := [0; 1; 2; 3; 4]%nat.

Definition onePass : MeasureApCorrTask unit := task (cfg 1 1.5%float []).

Definition outlierField : Outcome (Locals (list (list float))) * World :=
  correctField onePass tt allStars "f" (keysOf "f") noLocals (world outlierCat).

Definition outlierLocals : Locals (list (list float)) :=
  match outlierField.1 with
  | Returned loc => loc
  | _ => noLocals
  end.

Definition outlierRun : Outcome (gmap string (list (list float))) * World :=
  run onePass (mkExposure tt) (world outlierCat).

Definition outlierSample : FitSample :=
  fillArrays outlierCat (keysOf "ref") (keysOf "f") allStars.

Definition order0 : Control := {| orderX := 0; orderY := 0; triangular := true |}.

Definition outlierLoop : Outcome (FitSample * option float) * World :=
  clipLoop 1 tt order0 1.5%float outlierSample None (world outlierCat).

Definition keptSample : FitSample :=
  match outlierLoop.1 with
  | Returned r => r.1
  | _ => outlierSample
  end.

Definition noPass : MeasureApCorrTask unit := task (cfg 0 1.5%float []).

End Example.

(** ** Vocabulary of the statements *)

Definition row_x (r : float * float * float * nat) : float := r.1.1.1.
Definition row_y (r : float * float * float * nat) : float := r.1.1.2.
Definition row_data (r : float * float * float * nat) : float := r.1.2.
Definition row_index (r : float * float * float * nat) : nat := r.2.

Definition lastChar (s : string) : option ascii :=
  last (String.list_ascii_of_string s).

(** The narrowing test in the spec's words: the field's validity flag is
    false, and its flux is finite and strictly positive. *)
Definition usable (cat : list SourceRecord) (keys : FluxKeys) (ref : nat) : bool :=
  negb (getFlag (cat !!! ref) (flag keys))
  && numpy.isfinite (getFloat (cat !!! ref) (flux keys))
  && PrimFloat.ltb PrimFloat.zero (getFloat (cat !!! ref) (flux keys)).

(** The records reached through [subset2] from a list of indices. *)
Definition survivors (subset2 : list nat) (indices : list nat) : list nat :=
  omap (fun i => subset2 !! i) indices.

(** What [run] may do to a catalogue: no record appears, disappears or
    moves; positions and fluxes stay; a flag that is set stays set. *)
Definition frame (cat cat' : list SourceRecord) : Prop :=
  length cat' = length cat
  /\ forall j r, cat !! j = Some r ->
       exists r', cat' !! j = Some r'
         /\ getX r' = getX r /\ getY r' = getY r /\ getFloat r' = getFloat r
         /\ (forall k, getFlag r k = true -> getFlag r' k = true).

(** Two catalogues that differ at most in "used" flags. *)
Definition sameMeasurements (cat cat' : list SourceRecord) : Prop :=
  forall j, getFloat (cat' !!! j) = getFloat (cat !!! j)
    /\ forall k, (forall n, k <> used (keysOf n)) ->
                 getFlag (cat' !!! j) k = getFlag (cat !!! j) k.

(** Every entry of the dict [toCorrect] holds the keys built from its name,
    as [Task_init] builds them. *)
Definition keyed (entries : list (string * FluxKeys)) : Prop :=
  Forall (fun entry => entry.2 = keysOf entry.1) entries.

(** A working set [s] cut from [s0]: its indices are, in order, some of
    those of [s0], and each of its points is the point of [s0] at its index. *)
Definition membership (s0 s : FitSample) : Prop :=
  sublist (indices s) (indices s0)
  /\ forall k i, indices s !! k = Some i ->
       is_Some (x s0 !! i)
       /\ x s !! k = x s0 !! i /\ y s !! k = y s0 !! i
       /\ apCorrData s !! k = apCorrData s0 !! i.

(** The working set with no point. *)
Definition emptySample : FitSample :=
  {| x := []; y := []; apCorrData := []; indices := [] |}.

(** The number of points passed to the fitter in a call, and the agreement of
    the lengths of its three arrays. *)
Definition sizeOf (c : FitCall) : nat := length (fit_x c).

Definition evenCall (c : FitCall) : Prop :=
  length (fit_y c) = length (fit_x c) /\ length (fit_data c) = length (fit_x c).

(** The field a log line is about ([None] for the opening line of a run),
    and whether the line reports a measured field. *)
Definition eventField (ev : LogEvent) : option string :=
  match ev with
  | InfoMeasuring _ => None
  | WarnUnable name _ _ => Some name
  | InfoRms name _ _ => Some name
  end.

Definition isMeasured (ev : LogEvent) : bool :=
  match ev with
  | InfoRms _ _ _ => true
  | _ => false
  end.


Section Vocabulary.
Context {BBox Field : Type} `{!ChebyshevApi BBox Field}.

(** The residual of a row under a fitted surface: evaluated minus observed. *)
Definition residual (field : Field) (r : float * float * float * nat) : float :=
  PrimFloat.sub (evaluate field (row_x r) (row_y r)) (row_data r).

Definition callOf (s : FitSample) (ctrl : Control) : FitCall :=
  {| fit_x := x s; fit_y := y s; fit_data := apCorrData s; fit_ctrl := ctrl |}.

Definition withFit (w : World) (c : FitCall) : World :=
  {| catalog := catalog w; log := log w; fitCalls := fitCalls w ++ [c] |}.

(** The working set one pass leaves, given the surface it fitted. *)
Definition clipped (field : Field) (nSigma : float) (s : FitSample) : FitSample :=
  clip s (keepOf (residuals field s)
                 (PrimFloat.mul nSigma (rms (residuals field s)))).

(** The test of line 233 in the world a field is processed in. *)
Definition insufficient (w : World) (task : MeasureApCorrTask BBox)
    (keys : FluxKeys) (subset1 : list nat) : bool :=
  Z.of_nat (length (narrow (catalog w) keys subset1)) - 1
  <? minDegreesOfFreedom (config task).

(** Lines 252-303 of [correctField], for a field that passed the test and
    whose orders were lowered to [ctrl] (see [correctField_sufficient]). *)
Definition fitField (task : MeasureApCorrTask BBox) (bbox : BBox)
    (name : string) (keys : FluxKeys) (subset2 : list nat) (ctrl : Control)
    (s0 : FitSample) (loc : Locals Field) : M (Locals Field) :=
  bind (clipLoop (Z.to_nat (numIter (config task))) bbox ctrl
                 (numSigmaClip (config task)) s0 (apCorrErr loc))
    (fun r =>
     bind (callFit bbox r.1 ctrl) (fun apCorrField =>
     bind (logEvent (InfoRms name (rms (residuals apCorrField r.1))
                             (length (indices r.1)))) (fun _ =>
     match r.2 with
     | None => raise (UnboundLocalError "apCorrErr")
     | Some apCorrErr' =>
         bind (markUsed keys subset2 (indices r.1)) (fun _ =>
         ret {| apCorrMap :=
                  <[name +:+ "_instFluxErr" := fromCoefficients bbox [[apCorrErr']]]>
                    (<[name +:+ "_instFlux" := apCorrField]> (apCorrMap loc));
                apCorrErr := Some apCorrErr' |})
     end))).

(** The claimed error of the spec, in its words: the RMS of the residuals
    of a surface over the arrays of a fit (those of the terminal fit). *)
Definition finalFitRms (field : Field) (c : FitCall) : float :=
  rms (zip_with PrimFloat.sub
                (zip_with (evaluate field) (fit_x c) (fit_y c)) (fit_data c)).

(** The map holds, for a field, a surface and a constant error surface. *)
Definition measuredIn (bbox : BBox) (name : string) (m : gmap string Field) : Prop :=
  is_Some (m !! (name +:+ "_instFlux"))
  /\ exists e, m !! (name +:+ "_instFluxErr") = Some (fromCoefficients bbox [[e]]).

End Vocabulary.

(** ** Further scenarios on the concrete library *)

Module Scenario.
Import ConstantSurface Example.

(** A star whose ratio overflows to infinity beside an ordinary one: the
    mean is infinite and the residual of the first is NaN. *)
Definition overflowCat : list SourceRecord :=
  [ star 0 0 0x1p+1023 0x1p-1022; star 1 0 2 2 ]%float.

Definition overflowSample : FitSample :=
  fillArrays overflowCat (keysOf "ref") (keysOf "f") [0; 1]%nat.

(** Two passes on [outlierCat]: the second removes nothing. *)
Definition twoPasses : MeasureApCorrTask unit := task (cfg 2 1.5%float []).

Definition stableField : Outcome (Locals (list (list float))) * World :=
  correctField twoPasses tt allStars "f" (keysOf "f") noLocals (world outlierCat).

Definition stableLocals : Locals (list (list float)) :=
  match stableField.1 with
  | Returned loc => loc
  | _ => noLocals
  end.

Definition fourPoints : FitCall :=
  {| fit_x := [0; 1; 2; 3]%float; fit_y := [0; 0; 0; 0]%float;
     fit_data := [1; 1; 1; 1]%float; fit_ctrl := order0 |}.

Definition fivePoints : FitCall :=
  {| fit_x := [0; 1; 2; 3; 4]%float; fit_y := [0; 0; 0; 0; 0]%float;
     fit_data := [1; 1; 1; 1; 6]%float; fit_ctrl := order0 |}.

Definition outlierMap : gmap string (list (list float)) :=
  match outlierRun.1 with
  | Returned m => m
  | _ => ∅
  end.

(** The first record of [outlierCat] after its field was processed. *)
Definition firstMarked : SourceRecord := catalog outlierField.2 !!! 0%nat.

(** Orders below zero with two usable stars. *)
Definition negativeOrders : MeasureApCorrTask unit :=
  {| config := {| refFluxName := "ref"; minDegreesOfFreedom := 1;
                  fitConfig := {| orderX := -3; orderY := -3; triangular := false |};
                  numIter := 4; numSigmaClip := 3%float; allowFailure := [] |};
     refFluxKeys := keysOf "ref";
     toCorrect := [("f", keysOf "f")];
     sourceSelector := fun cat _ => seq 0 (length cat) |}.

End Scenario.

(** * Properties *)

(** ** Floats: NaN fails every comparison *)

Lemma is_nan_Prim2SF (f : float) :
  PrimFloat.is_nan f = true -> Prim2SF f = S754_nan.
Proof.
  unfold PrimFloat.is_nan. rewrite FloatAxioms.eqb_spec.
  destruct (Prim2SF f) as [s| s| |s m e]; try reflexivity;
    unfold SFeqb, SFcompare; try (destruct s; discriminate).
  rewrite Z.compare_refl, Pos.compare_cont_refl.
  destruct s; cbn; discriminate.
Qed.

Lemma nan_not_finite (f : float) :
  PrimFloat.is_nan f = true -> numpy.isfinite f = false.
Proof.
  intros Hnan. unfold numpy.isfinite, PrimFloat.is_finite. rewrite Hnan. reflexivity.
Qed.

Lemma nan_not_positive (f : float) :
  PrimFloat.is_nan f = true -> PrimFloat.ltb PrimFloat.zero f = false.
Proof.
  intros Hnan. rewrite ltb_spec, (is_nan_Prim2SF f Hnan).
  unfold SFltb, SFcompare. destruct (Prim2SF PrimFloat.zero); reflexivity.
Qed.

Lemma nan_not_kept (d lim : float) :
  PrimFloat.is_nan d = true -> PrimFloat.leb (numpy.fabs d) lim = false.
Proof.
  intros Hnan. unfold numpy.fabs.
  rewrite leb_spec, abs_spec, (is_nan_Prim2SF d Hnan). reflexivity.
Qed.

(** ** Arrays: masks, zips and filters *)

Lemma filter_zip_fmap {A : Type} (g : A -> bool) (l : list A) :
  (filter (fun p : A * bool => Is_true p.2) (zip l (g <$> l))).*1
  = filter (fun a => Is_true (g a)) l.
Proof.
  induction l as [|a l IH]; [reflexivity|].
  cbn [fmap list_fmap zip zip_with]. rewrite !filter_cons. cbn [snd].
  destruct (g a) eqn:Hg; cbn.
  - destruct (decide True); [|tauto]. cbn. f_equal. exact IH.
  - destruct (decide False); [tauto|]. exact IH.
Qed.

Lemma mask_fmap {A : Type} (g : A -> bool) (l : list A) :
  numpy.mask l (g <$> l) = filter (fun a => Is_true (g a)) l.
Proof.
  induction l as [|a l IH]; [reflexivity|].
  cbn [fmap list_fmap numpy.mask]. rewrite filter_cons.
  destruct (g a) eqn:Hg; cbn.
  - destruct (decide True); [|tauto]. f_equal. exact IH.
  - destruct (decide False); [tauto|]. exact IH.
Qed.

Lemma mask_zip {A B : Type} (a : list A) (b : list B) (keep : list bool) :
  numpy.mask (zip a b) keep = zip (numpy.mask a keep) (numpy.mask b keep).
Proof.
  revert b keep. induction a as [|v a IH]; intros b keep.
  - destruct keep; reflexivity.
  - destruct b as [|u b], keep as [|k keep]; cbn; try reflexivity.
    + destruct k; [reflexivity|]. destruct (numpy.mask a keep); reflexivity.
    + destruct k; cbn; [f_equal|]; apply IH.
Qed.

Lemma mask_length {A B : Type} (a : list A) (b : list B) (keep : list bool) :
  length a = length b ->
  length (numpy.mask a keep) = length (numpy.mask b keep).
Proof.
  revert b keep. induction a as [|v a IH]; intros [|u b] [|k keep] Hlen;
    cbn in *; try reflexivity; try discriminate.
  destruct k; cbn; [f_equal|]; apply IH; lia.
Qed.

Lemma mask_sublist {A : Type} (a : list A) (keep : list bool) :
  sublist (numpy.mask a keep) a.
Proof.
  revert keep. induction a as [|v a IH]; intros [|k keep]; cbn.
  - constructor.
  - constructor.
  - apply sublist_nil_l.
  - destruct k; [apply sublist_skip | apply sublist_cons]; apply IH.
Qed.

(** ** Field names *)

Lemma list_ascii_of_append (a b : string) :
  String.list_ascii_of_string (a +:+ b)
  = String.list_ascii_of_string a ++ String.list_ascii_of_string b.
Proof.
  induction a as [|c a IH]; [reflexivity|].
  change (String c a +:+ b) with (String c (a +:+ b)).
  cbn [String.list_ascii_of_string app]. f_equal. exact IH.
Qed.

Lemma append_inj_suffix (a b s : string) : a +:+ s = b +:+ s -> a = b.
Proof.
  intros Heq. apply (f_equal String.list_ascii_of_string) in Heq.
  rewrite !list_ascii_of_append in Heq. apply app_inv_tail in Heq.
  rewrite <- (String.string_of_list_ascii_of_string a),
          <- (String.string_of_list_ascii_of_string b).
  f_equal. exact Heq.
Qed.

Lemma lastChar_append (a b : string) (c : ascii) :
  lastChar b = Some c -> lastChar (a +:+ b) = Some c.
Proof.
  unfold lastChar. rewrite list_ascii_of_append, last_app. intros ->. reflexivity.
Qed.

Lemma fluxName_not_fluxErrName (a b : string) : a +:+ "_instFlux" <> b +:+ "_instFluxErr".
Proof.
  intros Heq. apply (f_equal lastChar) in Heq.
  rewrite (lastChar_append a "_instFlux" "x"%char), (lastChar_append b "_instFluxErr" "r"%char) in Heq;
    [discriminate | reflexivity..].
Qed.

Lemma used_not_flag (a b : string) : used (keysOf a) <> flag (keysOf b).
Proof.
  cbn [used flag keysOf]. intros Heq. apply (f_equal lastChar) in Heq.
  rewrite (lastChar_append "apcorr_" (a +:+ "_used") "d"%char),
          (lastChar_append b "_flag" "g"%char) in Heq;
    [discriminate | reflexivity | apply lastChar_append; reflexivity].
Qed.

(** ** The monad *)

Lemma bind_returned {A B : Type} (m : M A) (k : A -> M B) (w w' : World) (b : B) :
  bind m k w = (Returned b, w') ->
  exists a w1, m w = (Returned a, w1) /\ k a w1 = (Returned b, w').
Proof.
  unfold bind. destruct (m w) as [[a| e| ] w1]; intros Heq; try discriminate.
  exists a, w1. split; [reflexivity | exact Heq].
Qed.

Lemma bind_step {A B : Type} (m : M A) (k : A -> M B) (w w1 : World) (a : A) :
  m w = (Returned a, w1) -> bind m k w = k a w1.
Proof. unfold bind. intros ->. reflexivity. Qed.

(** Splits a hypothesis [bind m k w = (Returned _, _)] into its two steps. *)
Ltac bind_inv H :=
  let a := fresh "a" in
  let w1 := fresh "w" in
  let H1 := fresh "Hm" in
  apply bind_returned in H; destruct H as (a & w1 & H1 & H).

(** The rows of a working set and its four arrays. *)

Lemma rows_arrays (s : FitSample) :
  wellFormed s ->
  x s = row_x <$> rows s /\ y s = row_y <$> rows s
  /\ apCorrData s = row_data <$> rows s /\ indices s = row_index <$> rows s.
Proof.
  destruct s as [xs ys ds ix]. unfold wellFormed, rows. cbn.
  revert ys ds ix. induction xs as [|a xs IH]; intros [|b ys] [|d ds] [|i ix];
    cbn; intros (H1 & H2 & H3); try discriminate; [repeat split|].
  destruct (IH ys ds ix) as (E1 & E2 & E3 & E4); [repeat split; lia|].
  repeat split; f_equal; assumption.
Qed.

Lemma rows_length (s : FitSample) :
  wellFormed s -> length (rows s) = length (x s).
Proof.
  intros (H1 & H2 & H3). unfold rows. rewrite !length_zip_with. lia.
Qed.

Lemma rows_clip (s : FitSample) (keep : list bool) :
  rows (clip s keep) = numpy.mask (rows s) keep.
Proof. unfold rows, clip. cbn. rewrite !mask_zip. reflexivity. Qed.

Lemma clip_wellFormed (s : FitSample) (keep : list bool) :
  wellFormed s -> wellFormed (clip s keep).
Proof.
  intros (H1 & H2 & H3). unfold wellFormed, clip. cbn.
  repeat split; apply mask_length; assumption.
Qed.

(** ** The task's keys, cut working sets, and marked records *)

Lemma FluxKeys_init_keysOf name schema keys :
  FluxKeys_init name schema = Some keys -> keys = keysOf name.
Proof. unfold FluxKeys_init. destruct (_ && _); [intros [= <-]; reflexivity | discriminate]. Qed.

Lemma Task_init_keyed {BBox : Type} cfg schema names selector (task : MeasureApCorrTask BBox) :
  Task_init cfg schema names selector = Some task ->
  keyed (toCorrect task) /\ refFluxKeys task = keysOf (refFluxName cfg) /\ config task = cfg.
Proof.
  unfold Task_init. destruct (FluxKeys_init (refFluxName cfg) schema) as [refKeys|] eqn:Href;
    [|discriminate].
  cbn. intros [= <-]. cbn. split; [|split; [exact (FluxKeys_init_keysOf _ _ _ Href) | reflexivity]].
  unfold keyed. apply Forall_forall. intros [n keys] Hin.
  apply list_elem_of_omap in Hin. destruct Hin as (n' & _ & Hn').
  destruct (FluxKeys_init n' schema) as [k|] eqn:Hk; [|discriminate].
  cbn in Hn'. injection Hn' as <- <-. cbn. exact (FluxKeys_init_keysOf _ _ _ Hk).
Qed.

Lemma membership_sublist (s0 s : FitSample) :
  wellFormed s0 -> wellFormed s ->
  indices s0 = seq 0 (length (x s0)) ->
  sublist (rows s) (rows s0) ->
  membership s0 s.
Proof.
  intros Hwf0 Hwf Hseq Hsub.
  destruct (rows_arrays s0 Hwf0) as (Hx0 & Hy0 & Hd0 & Hi0).
  destruct (rows_arrays s Hwf) as (Hx & Hy & Hd & Hi).
  split.
  - rewrite Hi, Hi0. apply fmap_sublist. exact Hsub.
  - intros k i Hk. rewrite Hi, list_lookup_fmap in Hk.
    destruct (rows s !! k) as [r|] eqn:Hr; [|discriminate].
    cbn in Hk. injection Hk as Hri.
    assert (Hin : r ∈ rows s0).
    { eapply elem_of_sublist; [|exact Hsub]. apply list_elem_of_lookup. exists k. exact Hr. }
    apply list_elem_of_lookup in Hin. destruct Hin as [i' Hi'].
    assert (Hii : i' = i).
    { assert (Hidx : indices s0 !! i' = Some (row_index r))
        by (rewrite Hi0, list_lookup_fmap, Hi'; reflexivity).
      rewrite Hseq in Hidx. apply lookup_seq in Hidx. lia. }
    subst i'. rewrite Hx, Hy, Hd, Hx0, Hy0, Hd0, !list_lookup_fmap, Hr, Hi'. cbn.
    split; [eexists; reflexivity | repeat split].
Qed.

Lemma fold_markOne_spec (keys : FluxKeys) (subset2 : list nat) (idxs : list nat) :
  forall cat j r, cat !! j = Some r ->
    exists r', fold_left (markOne keys subset2) idxs cat !! j = Some r'
      /\ getX r' = getX r /\ getY r' = getY r /\ getFloat r' = getFloat r
      /\ (forall k, k <> used keys -> getFlag r' k = getFlag r k)
      /\ getFlag r' (used keys)
         = getFlag r (used keys) || bool_decide (j ∈ survivors subset2 idxs).
Proof.
  induction idxs as [|i idxs IH]; intros cat j r Hj.
  - exists r. cbn. repeat split; auto. rewrite orb_false_r. reflexivity.
  - cbn [fold_left]. unfold markOne at 2. unfold survivors. cbn [omap list_omap].
    destruct (subset2 !! i) as [ref|] eqn:Hi; [|exact (IH cat j r Hj)].
    destruct (decide (ref = j)) as [->|Hne].
    + destruct (IH (alter (setFlag (used keys) true) j cat) j (setFlag (used keys) true r))
        as (r' & Hr' & Hx & Hy & Hf & Hk & Hu).
      { rewrite list_lookup_alter_eq, Hj. reflexivity. }
      exists r'. split; [exact Hr'|]. cbn in Hx, Hy, Hf. repeat split; try assumption.
      * intros k Hne. rewrite (Hk k Hne). cbn.
        destruct (String.eqb_spec k (used keys)); [contradiction | reflexivity].
      * rewrite Hu. cbn. rewrite String.eqb_refl.
        rewrite (bool_decide_eq_true_2 (j ∈ j :: _)) by (left).
        rewrite orb_true_r. reflexivity.
    + destruct (IH (alter (setFlag (used keys) true) ref cat) j r)
        as (r' & Hr' & Hx & Hy & Hf & Hk & Hu).
      { rewrite list_lookup_alter_ne by exact Hne. exact Hj. }
      exists r'. split; [exact Hr'|]. repeat split; try assumption.
      rewrite Hu. f_equal. apply bool_decide_ext. fold (survivors subset2 idxs).
      rewrite elem_of_cons. intuition congruence.
Qed.

Section Properties.
Context {BBox Field : Type} `{!ChebyshevApi BBox Field}.

(** *** Narrowing *)

Lemma isGoodOf_usable (cat : list SourceRecord) (keys : FluxKeys) (subset1 : list nat) :
  isGoodOf cat keys subset1 = usable cat keys <$> subset1.
Proof.
  unfold isGoodOf, fluxesOf, numpy.logical_and_reduce. cbn [fold_left].
  induction subset1 as [|r l IH]; [reflexivity|].
  cbn. f_equal. exact IH.
Qed.

Lemma narrow_filter (cat : list SourceRecord) (keys : FluxKeys) (subset1 : list nat) :
  narrow cat keys subset1 = filter (fun ref => Is_true (usable cat keys ref)) subset1.
Proof. unfold narrow. rewrite isGoodOf_usable. apply filter_zip_fmap. Qed.

(** C6. [subset2] is [subset1] filtered, in order, by: flag false, flux
    finite and strictly positive; on a NaN flux both comparisons are false
    and the test fails (the test is a total function, nothing is raised);
    and [apCorrData[n]] is the reference flux over the field's flux of the
    n-th retained record. *)
Theorem C6_narrowing_and_ratio (cat : list SourceRecord) (refKeys keys : FluxKeys)
    (subset1 : list nat) :
  let subset2 := narrow cat keys subset1 in
  let s := fillArrays cat refKeys keys subset2 in
  subset2 = filter (fun ref => Is_true (usable cat keys ref)) subset1
  /\ (forall ref, PrimFloat.is_nan (getFloat (cat !!! ref) (flux keys)) = true ->
        numpy.isfinite (getFloat (cat !!! ref) (flux keys)) = false
        /\ PrimFloat.ltb PrimFloat.zero (getFloat (cat !!! ref) (flux keys)) = false
        /\ usable cat keys ref = false)
  /\ length (apCorrData s) = length subset2
  /\ (forall n ref, subset2 !! n = Some ref ->
        apCorrData s !! n
        = Some (PrimFloat.div (getFloat (cat !!! ref) (flux refKeys))
                              (getFloat (cat !!! ref) (flux keys)))).
Proof.
  intros subset2 s. split; [apply narrow_filter|]. split; [|split].
  - intros ref Hnan. split; [exact (nan_not_finite _ Hnan)|].
    split; [exact (nan_not_positive _ Hnan)|].
    unfold usable. rewrite (nan_not_finite _ Hnan).
    destruct (getFlag _ _); reflexivity.
  - unfold s, fillArrays. cbn. apply length_fmap.
  - intros n ref Hn. unfold s, fillArrays. cbn.
    rewrite list_lookup_fmap, Hn. reflexivity.
Qed.

(** *** One pass of the clip loop *)

Lemma residuals_rows (field : Field) (s : FitSample) :
  wellFormed s -> residuals field s = residual field <$> rows s.
Proof.
  destruct s as [xs ys ds ix]. unfold wellFormed, residuals, rows. cbn.
  revert ys ds ix. induction xs as [|a xs IH]; intros [|b ys] [|d ds] [|i ix];
    cbn; intros (H1 & H2 & H3); try discriminate; [reflexivity|].
  f_equal. apply IH. repeat split; lia.
Qed.

Lemma callFit_returned (bbox : BBox) (s : FitSample) (ctrl : Control) (w : World)
    (field : Field) :
  fit bbox (x s) (y s) (apCorrData s) ctrl = Some field ->
  callFit bbox s ctrl w
  = (Returned field,
     {| catalog := catalog w; log := log w;
        fitCalls := fitCalls w ++ [ {| fit_x := x s; fit_y := y s;
                                       fit_data := apCorrData s;
                                       fit_ctrl := ctrl |} ] |}).
Proof. intros Hfit. unfold callFit, bind, recordFit. cbn. rewrite Hfit. reflexivity. Qed.

Lemma callFit_inv (bbox : BBox) (s : FitSample) (ctrl : Control) (w w' : World)
    (field : Field) :
  callFit bbox s ctrl w = (Returned field, w') ->
  fit bbox (x s) (y s) (apCorrData s) ctrl = Some field
  /\ w' = {| catalog := catalog w; log := log w;
             fitCalls := fitCalls w ++ [ {| fit_x := x s; fit_y := y s;
                                            fit_data := apCorrData s;
                                            fit_ctrl := ctrl |} ] |}.
Proof.
  unfold callFit, bind, recordFit. cbn.
  destruct (fit bbox (x s) (y s) (apCorrData s) ctrl) as [f|]; cbn; [|discriminate].
  intros [= <- <-]. split; reflexivity.
Qed.

(** C5. One pass of the clip loop on a working set whose fit succeeds: the
    residual of a point is the surface evaluated there minus the observed
    ratio; the error is sqrt(mean(residual^2)) over the working set the pass
    started from; the rows kept are, in order, exactly those whose absolute
    residual is at most numSigmaClip times that error; a NaN residual is
    never kept; and the four arrays are cut alike. *)
Theorem C5_clip_iteration (bbox : BBox) (ctrl : Control) (nSigma : float)
    (s : FitSample) (w : World) (field : Field) :
  wellFormed s ->
  fit bbox (x s) (y s) (apCorrData s) ctrl = Some field ->
  let apCorrErr := numpy.pow_half
                     (numpy.mean (numpy.square <$> (residual field <$> rows s))) in
  let kept r := PrimFloat.leb (numpy.fabs (residual field r))
                              (PrimFloat.mul nSigma apCorrErr) in
  exists s' w',
    clipIteration bbox ctrl nSigma s w = (Returned (s', apCorrErr), w')
    /\ rows s' = filter (fun r => Is_true (kept r)) (rows s)
    /\ (forall r, PrimFloat.is_nan (residual field r) = true -> kept r = false)
    /\ wellFormed s'
    /\ x s' = row_x <$> rows s' /\ y s' = row_y <$> rows s'
    /\ apCorrData s' = row_data <$> rows s' /\ indices s' = row_index <$> rows s'.
Proof.
  intros Hwf Hfit apCorrErr kept.
  exists (clip s (keepOf (residuals field s) (PrimFloat.mul nSigma (rms (residuals field s))))).
  eexists. split.
  - unfold clipIteration. rewrite (bind_step _ _ _ _ _ (callFit_returned _ _ _ _ _ Hfit)).
    unfold ret, rms. rewrite (residuals_rows _ _ Hwf). reflexivity.
  - assert (Hwf' : wellFormed (clip s (keepOf (residuals field s)
               (PrimFloat.mul nSigma (rms (residuals field s))))))
      by (apply clip_wellFormed; exact Hwf).
    split; [|split; [|split; [exact Hwf' | apply rows_arrays; exact Hwf']]].
    + rewrite rows_clip. unfold keepOf, rms. rewrite (residuals_rows _ _ Hwf).
      rewrite <- list_fmap_compose. apply (mask_fmap kept).
    + intros r Hnan. apply nan_not_kept. exact Hnan.
Qed.

(** *** The clip loop *)

Lemma clipIteration_inv bbox ctrl nSigma s w s' e' w' :
  clipIteration bbox ctrl nSigma s w = (Returned (s', e'), w') ->
  exists field,
    fit bbox (x s) (y s) (apCorrData s) ctrl = Some field
    /\ e' = rms (residuals field s)
    /\ s' = clipped field nSigma s
    /\ w' = withFit w (callOf s ctrl).
Proof.
  unfold clipIteration. intros Hrun. bind_inv Hrun.
  apply callFit_inv in Hm. destruct Hm as [Hfit ->].
  unfold ret in Hrun. injection Hrun as <- <- <-.
  exists a. repeat split. exact Hfit.
Qed.

Lemma bind_assoc {A B C : Type} (m : M A) (k : A -> M B) (k' : B -> M C) (w : World) :
  bind (bind m k) k' w = bind m (fun a => bind (k a) k') w.
Proof. unfold bind. destruct (m w) as [[a| |] w1]; reflexivity. Qed.

Lemma bind_ext {A B : Type} (m : M A) (k k' : A -> M B) (w : World) :
  (forall a w1, k a w1 = k' a w1) -> bind m k w = bind m k' w.
Proof. intros Hk. unfold bind. destruct (m w) as [[a| |] w1]; auto. Qed.

Lemma clipLoop_snoc n bbox ctrl nSigma s e w :
  clipLoop (S n) bbox ctrl nSigma s e w
  = bind (clipLoop n bbox ctrl nSigma s e)
         (fun r => bind (clipIteration bbox ctrl nSigma r.1)
                        (fun r' => ret (r'.1, Some r'.2))) w.
Proof.
  revert s e w. induction n as [|n IH]; intros s e w.
  - cbn [clipLoop]. unfold bind, ret. cbn.
    destruct (clipIteration bbox ctrl nSigma s w) as [[r| |] w1]; reflexivity.
  - change (clipLoop (S (S n)) bbox ctrl nSigma s e)
      with (bind (clipIteration bbox ctrl nSigma s)
                 (fun r => clipLoop (S n) bbox ctrl nSigma r.1 (Some r.2))).
    change (clipLoop (S n) bbox ctrl nSigma s e)
      with (bind (clipIteration bbox ctrl nSigma s)
                 (fun r => clipLoop n bbox ctrl nSigma r.1 (Some r.2))).
    rewrite bind_assoc. apply bind_ext. intros r w1. apply IH.
Qed.

Lemma clipLoop_inv n bbox ctrl nSigma s e w s' e' w' :
  clipLoop n bbox ctrl nSigma s e w = (Returned (s', e'), w') ->
  catalog w' = catalog w /\ log w' = log w
  /\ (exists calls, fitCalls w' = fitCalls w ++ calls /\ length calls = n)
  /\ (wellFormed s -> wellFormed s' /\ sublist (rows s') (rows s))
  /\ (n = O -> s' = s /\ e' = e)
  /\ (n <> O -> is_Some e').
Proof.
  revert s e w. induction n as [|n IH]; intros s e w Hrun.
  - cbn in Hrun. unfold ret in Hrun. injection Hrun as <- <- <-.
    split; [reflexivity|]. split; [reflexivity|]. split; [|split; [|split]].
    + exists []. rewrite app_nil_r. split; reflexivity.
    + intros Hs. split; [exact Hs | reflexivity].
    + intros _. split; reflexivity.
    + intros Hne. contradiction.
  - cbn [clipLoop] in Hrun. bind_inv Hrun. destruct a as [s1 e1].
    apply clipIteration_inv in Hm. destruct Hm as (field & Hfit & -> & -> & ->).
    apply IH in Hrun. cbn [fst snd] in Hrun.
    destruct Hrun as (Hcat & Hlog & (calls & Hcalls & Hlen) & Hwf & Hz & Hnz).
    split; [exact Hcat|]. split; [exact Hlog|]. split; [|split; [|split]].
    + exists (callOf s ctrl :: calls). cbn. rewrite Hcalls. cbn.
      rewrite <- app_assoc. cbn. split; [reflexivity | lia].
    + intros Hs. destruct Hwf as [Hwf' Hsub]; [apply clip_wellFormed; exact Hs|].
      split; [exact Hwf'|]. etransitivity; [exact Hsub|].
      unfold clipped. rewrite rows_clip. apply mask_sublist.
    + discriminate.
    + intros _. destruct n; [destruct Hz as [_ ->]; [reflexivity | eexists; reflexivity]|].
      apply Hnz. discriminate.
Qed.

(** The last pass of a loop of at least one pass. *)
Lemma clipLoop_last n bbox ctrl nSigma s e w s' e' w' :
  clipLoop (S n) bbox ctrl nSigma s e w = (Returned (s', e'), w') ->
  exists sPrev ePrev wPrev field,
    clipLoop n bbox ctrl nSigma s e w = (Returned (sPrev, ePrev), wPrev)
    /\ clipIteration bbox ctrl nSigma sPrev wPrev
       = (Returned (s', rms (residuals field sPrev)), w')
    /\ fit bbox (x sPrev) (y sPrev) (apCorrData sPrev) ctrl = Some field
    /\ e' = Some (rms (residuals field sPrev))
    /\ s' = clipped field nSigma sPrev
    /\ w' = withFit wPrev (callOf sPrev ctrl).
Proof.
  rewrite clipLoop_snoc. intros Hrun. bind_inv Hrun. destruct a as [sPrev ePrev].
  bind_inv Hrun. destruct a as [s1 e1]. unfold ret in Hrun. cbn in Hrun.
  injection Hrun as <- <- <-. cbn [fst] in Hm0.
  pose proof Hm0 as Hit.
  apply clipIteration_inv in Hm0. destruct Hm0 as (field & Hfit & -> & -> & ->).
  exists sPrev, ePrev, w0, field. repeat split; assumption.
Qed.

(** *** Lowering the orders *)

Lemma lowerOrder_orderX c :
  orderX (lowerOrder c) = if 0 <? orderX c then orderX c - 1 else orderX c.
Proof. unfold lowerOrder. destruct (0 <? orderX c), (0 <? orderY c) eqn:Hy; cbn; rewrite ?Hy; reflexivity. Qed.

Lemma lowerOrder_orderY c :
  orderY (lowerOrder c) = if 0 <? orderY c then orderY c - 1 else orderY c.
Proof. unfold lowerOrder. destruct (0 <? orderX c), (0 <? orderY c) eqn:Hy; cbn; rewrite ?Hy; reflexivity. Qed.

Lemma lowerOrder_triangular c : triangular (lowerOrder c) = triangular c.
Proof. unfold lowerOrder. destruct (0 <? orderX c), (0 <? orderY c) eqn:Hy; cbn; rewrite ?Hy; reflexivity. Qed.

Lemma lowerOrder_fixed c : orderX c <= 0 -> orderY c <= 0 -> lowerOrder c = c.
Proof.
  intros Hx Hy. unfold lowerOrder.
  destruct (Z.ltb_spec 0 (orderX c)); [lia|].
  destruct (Z.ltb_spec 0 (orderY c)); [lia|]. reflexivity.
Qed.

Lemma iter_lowerOrder_shift k c :
  Nat.iter k lowerOrder (lowerOrder c) = Nat.iter (S k) lowerOrder c.
Proof. symmetry. apply Nat.iter_succ_r. Qed.

Lemma iter_lowerOrder_orders k c :
  0 <= orderX c -> 0 <= orderY c ->
  Nat.iter k lowerOrder c
  = {| orderX := Z.max 0 (orderX c - Z.of_nat k);
       orderY := Z.max 0 (orderY c - Z.of_nat k);
       triangular := triangular c |}.
Proof.
  intros Hx Hy. induction k as [|k IH].
  - destruct c as [ox oy tri]. cbn in *. f_equal; lia.
  - rewrite Nat.iter_succ, IH.
    set (prev := {| orderX := Z.max 0 (orderX c - Z.of_nat k);
                    orderY := Z.max 0 (orderY c - Z.of_nat k);
                    triangular := triangular c |}).
    pose proof (lowerOrder_orderX prev) as Hox.
    pose proof (lowerOrder_orderY prev) as Hoy.
    pose proof (lowerOrder_triangular prev) as Htri.
    destruct (lowerOrder prev) as [ox oy tri].
    cbn [orderX orderY triangular prev] in Hox, Hoy, Htri. subst ox oy tri.
    destruct (Z.ltb_spec 0 (Z.max 0 (orderX c - Z.of_nat k))),
             (Z.ltb_spec 0 (Z.max 0 (orderY c - Z.of_nat k))); f_equal; lia.
Qed.

Lemma adaptOrder_exit n m t : forall ctrl,
  Z.of_nat n - 1 >= m ->
  computeSize {| orderX := 0; orderY := 0; triangular := triangular ctrl |} = 1 ->
  0 <= orderX ctrl -> 0 <= orderY ctrl ->
  Z.to_nat (Z.max (orderX ctrl) (orderY ctrl)) = t ->
  exists k, (k <= t)%nat
    /\ (forall j, (j < k)%nat -> underConstrained n m (Nat.iter j lowerOrder ctrl) = true)
    /\ underConstrained n m (Nat.iter k lowerOrder ctrl) = false
    /\ (forall fuel, (k <= fuel)%nat ->
          adaptOrder fuel n m ctrl = Some (Nat.iter k lowerOrder ctrl)).
Proof.
  induction t as [|t IH]; intros ctrl Hn Hsize Hx Hy Ht.
  - exists O. assert (Hzero : ctrl = {| orderX := 0; orderY := 0; triangular := triangular ctrl |}).
    { destruct ctrl as [ox oy tri]; cbn in *. f_equal; lia. }
    assert (Hunder : underConstrained n m ctrl = false).
    { rewrite Hzero. unfold underConstrained. rewrite Hsize. apply Z.ltb_ge. lia. }
    split; [lia|]. split; [intros j Hj; lia|]. split; [exact Hunder|].
    intros fuel _. destruct fuel; cbn; rewrite Hunder; reflexivity.
  - destruct (underConstrained n m ctrl) eqn:Hunder.
    + destruct (IH (lowerOrder ctrl)) as (k & Hk & Hbefore & Hexit & Hfuel).
      * exact Hn.
      * rewrite lowerOrder_triangular. exact Hsize.
      * rewrite lowerOrder_orderX. destruct (Z.ltb_spec 0 (orderX ctrl)); lia.
      * rewrite lowerOrder_orderY. destruct (Z.ltb_spec 0 (orderY ctrl)); lia.
      * rewrite lowerOrder_orderX, lowerOrder_orderY.
        destruct (Z.ltb_spec 0 (orderX ctrl)), (Z.ltb_spec 0 (orderY ctrl)); lia.
      * exists (S k). split; [lia|]. split; [|split].
        -- intros [|j] Hj; [exact Hunder|].
           rewrite <- iter_lowerOrder_shift. apply Hbefore. lia.
        -- rewrite <- iter_lowerOrder_shift. exact Hexit.
        -- intros [|fuel] Hle; [lia|]. cbn [adaptOrder]. rewrite Hunder.
           rewrite <- iter_lowerOrder_shift. apply Hfuel. lia.
    + exists O. split; [lia|]. split; [intros j Hj; lia|]. split; [exact Hunder|].
      intros fuel _. destruct fuel; cbn; rewrite Hunder; reflexivity.
Qed.

Lemma adaptOrder_None fuel n m : forall ctrl,
  adaptOrder fuel n m ctrl = None ->
  forall j, (j <= fuel)%nat -> underConstrained n m (Nat.iter j lowerOrder ctrl) = true.
Proof.
  induction fuel as [|fuel IH]; intros ctrl Hnone j Hj; cbn [adaptOrder] in Hnone.
  - destruct (underConstrained n m ctrl) eqn:Hunder; [|discriminate].
    replace j with O by lia. exact Hunder.
  - destruct (underConstrained n m ctrl) eqn:Hunder; [|discriminate].
    destruct j as [|j]; [exact Hunder|].
    rewrite <- iter_lowerOrder_shift. apply IH; [exact Hnone | lia].
Qed.

Lemma iter_lowerOrder_bound k c :
  orderX (Nat.iter k lowerOrder c) <= Z.max 0 (orderX c - Z.of_nat k)
  /\ orderY (Nat.iter k lowerOrder c) <= Z.max 0 (orderY c - Z.of_nat k).
Proof.
  induction k as [|k [IHx IHy]]; [cbn; lia|].
  rewrite Nat.iter_succ, lowerOrder_orderX, lowerOrder_orderY.
  destruct (Z.ltb_spec 0 (orderX (Nat.iter k lowerOrder c))),
           (Z.ltb_spec 0 (orderY (Nat.iter k lowerOrder c))); lia.
Qed.

(** Running out of [orderFuel] is a loop that no longer makes progress:
    the control reached is under-constrained and the body leaves it as it
    is, so the source's [while] never exits. *)
Lemma adaptOrder_out_of_fuel n m ctrl :
  adaptOrder (orderFuel ctrl) n m ctrl = None ->
  let stuck := Nat.iter (orderFuel ctrl) lowerOrder ctrl in
  underConstrained n m stuck = true /\ lowerOrder stuck = stuck.
Proof.
  intros Hnone stuck. split.
  - apply (adaptOrder_None _ _ _ _ Hnone). lia.
  - destruct (iter_lowerOrder_bound (orderFuel ctrl) ctrl) as [Hx Hy].
    apply lowerOrder_fixed; unfold stuck, orderFuel in *; lia.
Qed.

Lemma reduceOrder_returned n m ctrl ctrl' w w' :
  reduceOrder n m ctrl w = (Returned ctrl', w') ->
  adaptOrder (orderFuel ctrl) n m ctrl = Some ctrl' /\ w' = w.
Proof.
  unfold reduceOrder. destruct (adaptOrder _ _ _ _) as [c|]; [|discriminate].
  unfold ret. intros [= <- <-]. split; reflexivity.
Qed.

(** *** The body of the loop over the fields *)

Lemma correctField_sufficient task bbox subset1 name keys loc w :
  insufficient w task keys subset1 = false ->
  correctField task bbox subset1 name keys loc w
  = match adaptOrder (orderFuel (fitConfig (config task)))
                     (length (narrow (catalog w) keys subset1))
                     (minDegreesOfFreedom (config task))
                     (fitConfig (config task)) with
    | Some ctrl =>
        fitField task bbox name keys (narrow (catalog w) keys subset1) ctrl
                 (fillArrays (catalog w) (refFluxKeys task) keys
                             (narrow (catalog w) keys subset1)) loc w
    | None => (Diverged, w)
    end.
Proof.
  unfold insufficient. intros Hcheck. unfold correctField, getCatalog.
  unfold bind at 1. rewrite Hcheck. unfold reduceOrder, bind at 1.
  destruct (adaptOrder _ _ _ _) as [ctrl|]; reflexivity.
Qed.

Lemma correctField_insufficient task bbox subset1 name keys loc w :
  insufficient w task keys subset1 = true ->
  let n := length (narrow (catalog w) keys subset1) in
  let required := minDegreesOfFreedom (config task) + 1 in
  correctField task bbox subset1 name keys loc w
  = if bool_decide (name ∈ allowFailure (config task))
    then (Returned loc,
          {| catalog := catalog w; log := log w ++ [WarnUnable name n required];
             fitCalls := fitCalls w |})
    else (Raised (RuntimeError name n required), w).
Proof.
  intros Hcheck n required. unfold insufficient in Hcheck.
  unfold correctField, getCatalog.
  unfold bind at 1. rewrite Hcheck.
  destruct (bool_decide (name ∈ allowFailure (config task))); reflexivity.
Qed.

Lemma fitField_returned task bbox name keys subset2 ctrl s0 loc w loc' w' :
  fitField task bbox name keys subset2 ctrl s0 loc w = (Returned loc', w') ->
  exists s e wLoop field,
    clipLoop (Z.to_nat (numIter (config task))) bbox ctrl
             (numSigmaClip (config task)) s0 (apCorrErr loc) w
    = (Returned (s, Some e), wLoop)
    /\ fit bbox (x s) (y s) (apCorrData s) ctrl = Some field
    /\ loc' = {| apCorrMap :=
                   <[name +:+ "_instFluxErr" := fromCoefficients bbox [[e]]]>
                     (<[name +:+ "_instFlux" := field]> (apCorrMap loc));
                 apCorrErr := Some e |}
    /\ w' = {| catalog := fold_left (markOne keys subset2) (indices s) (catalog w);
               log := log w ++ [InfoRms name (rms (residuals field s))
                                        (length (indices s))];
               fitCalls := fitCalls wLoop ++ [callOf s ctrl] |}.
Proof.
  unfold fitField. intros Hrun. bind_inv Hrun. destruct a as [s eo].
  cbn [fst snd] in Hrun. bind_inv Hrun. rename a into field.
  apply callFit_inv in Hm0. destruct Hm0 as [Hfit ->].
  bind_inv Hrun. unfold logEvent in Hm0. inversion Hm0; subst; clear Hm0.
  destruct eo as [e|]; [|discriminate].
  bind_inv Hrun. unfold markUsed, bind, getCatalog, setCatalog in Hm0.
  cbn in Hm0. inversion Hm0; subst; clear Hm0.
  unfold ret in Hrun. inversion Hrun; subst; clear Hrun.
  destruct (clipLoop_inv _ _ _ _ _ _ _ _ _ _ Hm) as (Hcat & Hlog & _).
  exists s, e, w0, field. split; [exact Hm|]. split; [exact Hfit|].
  split; [reflexivity|]. cbn. rewrite Hcat, Hlog. reflexivity.
Qed.

(** *** Exceptions and the catalogue on every path *)

Lemma callFit_cases bbox s ctrl w :
  callFit bbox s ctrl w = (Raised FitError, withFit w (callOf s ctrl))
  \/ exists field, callFit bbox s ctrl w = (Returned field, withFit w (callOf s ctrl)).
Proof.
  unfold callFit, bind, recordFit. cbn.
  destruct (fit bbox (x s) (y s) (apCorrData s) ctrl) as [f|]; cbn;
    [right; exists f; reflexivity | left; reflexivity].
Qed.

Lemma clipIteration_cases bbox ctrl nSigma s w :
  clipIteration bbox ctrl nSigma s w = (Raised FitError, withFit w (callOf s ctrl))
  \/ exists r, clipIteration bbox ctrl nSigma s w = (Returned r, withFit w (callOf s ctrl)).
Proof.
  unfold clipIteration, bind.
  destruct (callFit_cases bbox s ctrl w) as [-> | [f ->]]; [left; reflexivity|].
  right. eexists. reflexivity.
Qed.

Lemma clipLoop_cases n bbox ctrl nSigma : forall s e w,
  catalog (clipLoop n bbox ctrl nSigma s e w).2 = catalog w
  /\ ((clipLoop n bbox ctrl nSigma s e w).1 = Raised FitError
      \/ exists r, (clipLoop n bbox ctrl nSigma s e w).1 = Returned r).
Proof.
  induction n as [|n IH]; intros s e w.
  - cbn. split; [reflexivity | right; eexists; reflexivity].
  - cbn [clipLoop]. unfold bind.
    destruct (clipIteration_cases bbox ctrl nSigma s w) as [-> | [r ->]].
    + cbn. split; [reflexivity | left; reflexivity].
    + destruct (IH r.1 (Some r.2) (withFit w (callOf s ctrl))) as [Hcat Hout].
      split; [exact Hcat | exact Hout].
Qed.

Lemma alter_setFlag_frame k ref cat :
  frame cat (alter (setFlag k true) ref cat).
Proof.
  split; [apply length_alter|]. intros j r Hj.
  destruct (decide (ref = j)) as [->|Hne].
  - exists (setFlag k true r). rewrite list_lookup_alter_eq, Hj. cbn.
    repeat split. intros k' Hk'. destruct (String.eqb k' k); [reflexivity | exact Hk'].
  - exists r. rewrite list_lookup_alter_ne by exact Hne. repeat split; auto.
Qed.

Lemma frame_refl cat : frame cat cat.
Proof. split; [reflexivity|]. intros j r Hj. exists r. repeat split; auto. Qed.

Lemma frame_trans cat1 cat2 cat3 : frame cat1 cat2 -> frame cat2 cat3 -> frame cat1 cat3.
Proof.
  intros [Hl1 H1] [Hl2 H2]. split; [congruence|]. intros j r Hj.
  destruct (H1 j r Hj) as (r2 & Hj2 & Hx & Hy & Hf & Hg).
  destruct (H2 j r2 Hj2) as (r3 & Hj3 & Hx3 & Hy3 & Hf3 & Hg3).
  exists r3. repeat split; try congruence. intros k Hk. apply Hg3, Hg, Hk.
Qed.

Lemma markOne_frame keys subset2 cat i : frame cat (markOne keys subset2 cat i).
Proof.
  unfold markOne. destruct (subset2 !! i); [apply alter_setFlag_frame | apply frame_refl].
Qed.

Lemma fold_markOne_frame keys subset2 idxs : forall cat,
  frame cat (fold_left (markOne keys subset2) idxs cat).
Proof.
  induction idxs as [|i idxs IH]; intros cat; [apply frame_refl|].
  cbn. eapply frame_trans; [apply markOne_frame | apply IH].
Qed.

Lemma fitField_cases task bbox name keys subset2 ctrl s0 loc w :
  let r := fitField task bbox name keys subset2 ctrl s0 loc w in
  (r.1 = Raised FitError /\ catalog r.2 = catalog w)
  \/ (r.1 = Raised (UnboundLocalError "apCorrErr") /\ catalog r.2 = catalog w)
  \/ (exists loc', r = (Returned loc', r.2)).
Proof.
  destruct (fitField task bbox name keys subset2 ctrl s0 loc w) as [out w'] eqn:Hrun.
  cbn [fst snd]. unfold fitField in Hrun. unfold bind at 1 in Hrun.
  destruct (clipLoop_cases (Z.to_nat (numIter (config task))) bbox ctrl
              (numSigmaClip (config task)) s0 (apCorrErr loc) w) as [Hcat Hout].
  destruct (clipLoop _ _ _ _ _ _ w) as [[[s eo]| e|] w1]; cbn [fst snd] in *.
  - unfold bind at 1 in Hrun.
    destruct (callFit_cases bbox s ctrl w1) as [Hfit | [f Hfit]]; rewrite Hfit in Hrun.
    + inversion Hrun; subst; clear Hrun. cbn. rewrite Hcat. left. split; reflexivity.
    + unfold bind at 1, logEvent in Hrun. destruct eo as [e|].
      * unfold bind, markUsed, getCatalog, setCatalog, ret in Hrun. cbn in Hrun.
        inversion Hrun; subst; clear Hrun. right; right. eexists. reflexivity.
      * unfold raise in Hrun. inversion Hrun; subst; clear Hrun. cbn. rewrite Hcat.
        right; left. split; reflexivity.
  - inversion Hrun; subst; clear Hrun. rewrite Hcat.
    destruct Hout as [Hout | [r Hout]]; [left; split; congruence | discriminate].
  - destruct Hout as [Hout | [r Hout]]; discriminate.
Qed.

Lemma correctField_frame task bbox subset1 name keys loc w :
  frame (catalog w) (catalog (correctField task bbox subset1 name keys loc w).2).
Proof.
  destruct (insufficient w task keys subset1) eqn:Hcheck.
  - rewrite (correctField_insufficient _ _ _ _ _ _ _ Hcheck).
    destruct (bool_decide _); apply frame_refl.
  - rewrite (correctField_sufficient _ _ _ _ _ _ _ Hcheck).
    destruct (adaptOrder _ _ _ _) as [ctrl|]; [|apply frame_refl].
    match goal with |- context [fitField ?t ?b ?n ?k ?s2 ?c ?s0 ?l ?w0] =>
      destruct (fitField_cases t b n k s2 c s0 l w0)
        as [[_ Hcat] | [[_ Hcat] | [loc' Hret]]] end.
    + rewrite Hcat. apply frame_refl.
    + rewrite Hcat. apply frame_refl.
    + apply fitField_returned in Hret.
      destruct Hret as (s & e & wLoop & field & _ & _ & _ & ->). cbn [catalog].
      apply fold_markOne_frame.
Qed.

Lemma correctField_no_RuntimeError task bbox subset1 name keys loc w :
  insufficient w task keys subset1 = false ->
  forall field n required,
    (correctField task bbox subset1 name keys loc w).1
    <> Raised (RuntimeError field n required).
Proof.
  intros Hcheck field n required.
  rewrite (correctField_sufficient _ _ _ _ _ _ _ Hcheck).
  destruct (adaptOrder _ _ _ _) as [ctrl|]; [|discriminate].
  destruct (fitField_cases task bbox name keys (narrow (catalog w) keys subset1) ctrl
              (fillArrays (catalog w) (refFluxKeys task) keys
                          (narrow (catalog w) keys subset1)) loc w)
    as [[-> _] | [[-> _] | [loc' ->]]]; discriminate.
Qed.

Lemma forFields_frame task bbox subset1 entries : forall loc w,
  frame (catalog w) (catalog (forFields task bbox subset1 entries loc w).2).
Proof.
  induction entries as [|[name keys] rest IH]; intros loc w; [apply frame_refl|].
  cbn [forFields]. unfold bind.
  pose proof (correctField_frame task bbox subset1 name keys loc w) as Hstep.
  destruct (correctField task bbox subset1 name keys loc w) as [[loc1| e|] w1];
    cbn [fst snd] in *; try exact Hstep.
  eapply frame_trans; [exact Hstep | apply IH].
Qed.

Lemma run_frame (task : MeasureApCorrTask BBox) exposure w :
  frame (catalog w) (catalog (run task exposure w).2).
Proof.
  unfold run, bind at 1, logEvent. unfold bind at 1, getCatalog. unfold bind.
  cbn [catalog].
  match goal with |- context [forFields ?t ?b ?s ?e ?l ?w0] =>
    pose proof (forFields_frame t b s e l w0) as Hloop;
    destruct (forFields t b s e l w0) as [[loc1| e1|] w1] end;
    cbn [fst snd catalog] in *; exact Hloop.
Qed.

(** *** Catalogues that differ in "used" flags only *)

Lemma sameMeasurements_refl cat : sameMeasurements cat cat.
Proof. intros j. split; [reflexivity | intros k _; reflexivity]. Qed.

Lemma sameMeasurements_trans cat1 cat2 cat3 :
  sameMeasurements cat1 cat2 -> sameMeasurements cat2 cat3 -> sameMeasurements cat1 cat3.
Proof.
  intros H12 H23 j. destruct (H12 j) as [Hf Hg], (H23 j) as [Hf' Hg'].
  split; [congruence|]. intros k Hk. rewrite Hg', Hg by exact Hk. reflexivity.
Qed.

Lemma markOne_sameMeasurements name subset2 cat i :
  sameMeasurements cat (markOne (keysOf name) subset2 cat i).
Proof.
  unfold markOne. destruct (subset2 !! i) as [ref|]; [|apply sameMeasurements_refl].
  intros j. rewrite list_lookup_total_alter.
  destruct (decide (ref = j /\ (ref < length cat)%nat)) as [[-> _]|_];
    [|split; [reflexivity | intros k _; reflexivity]].
  cbn [setFlag getFloat getFlag]. split; [reflexivity|]. intros k Hk.
  destruct (String.eqb_spec k (used (keysOf name))) as [Heq|_]; [|reflexivity].
  exfalso. exact (Hk name Heq).
Qed.

Lemma fold_markOne_sameMeasurements name subset2 idxs : forall cat,
  sameMeasurements cat (fold_left (markOne (keysOf name) subset2) idxs cat).
Proof.
  induction idxs as [|i idxs IH]; intros cat; [apply sameMeasurements_refl|].
  cbn. eapply sameMeasurements_trans; [apply markOne_sameMeasurements | apply IH].
Qed.

Lemma narrow_sameMeasurements cat cat' name subset1 :
  sameMeasurements cat cat' ->
  narrow cat' (keysOf name) subset1 = narrow cat (keysOf name) subset1.
Proof.
  intros Hsame. rewrite !narrow_filter. apply list_filter_iff. intros ref.
  unfold usable. destruct (Hsame ref) as [-> Hflag].
  rewrite Hflag; [reflexivity|]. intros n Heq. symmetry in Heq.
  exact (used_not_flag n name Heq).
Qed.

Lemma correctField_sameMeasurements task bbox subset1 name loc w :
  sameMeasurements (catalog w)
    (catalog (correctField task bbox subset1 name (keysOf name) loc w).2).
Proof.
  destruct (insufficient w task (keysOf name) subset1) eqn:Hcheck.
  - rewrite (correctField_insufficient _ _ _ _ _ _ _ Hcheck).
    destruct (bool_decide _); apply sameMeasurements_refl.
  - rewrite (correctField_sufficient _ _ _ _ _ _ _ Hcheck).
    destruct (adaptOrder _ _ _ _) as [ctrl|]; [|apply sameMeasurements_refl].
    match goal with |- context [fitField ?t ?b ?n ?k ?s2 ?c ?s0 ?l ?w0] =>
      destruct (fitField_cases t b n k s2 c s0 l w0)
        as [[_ Hcat] | [[_ Hcat] | [loc' Hret]]] end.
    + rewrite Hcat. apply sameMeasurements_refl.
    + rewrite Hcat. apply sameMeasurements_refl.
    + apply fitField_returned in Hret.
      destruct Hret as (s & e & wLoop & field & _ & _ & _ & ->). cbn [catalog].
      apply fold_markOne_sameMeasurements.
Qed.

(** *** Names that never enter the map *)

Lemma forFields_absent task bbox subset1 cat0 name entries : forall loc w loc' w',
  keyed entries ->
  sameMeasurements cat0 (catalog w) ->
  (forall keys, (name, keys) ∈ entries ->
     Z.of_nat (length (narrow cat0 keys subset1)) - 1
     < minDegreesOfFreedom (config task)) ->
  forFields task bbox subset1 entries loc w = (Returned loc', w') ->
  apCorrMap loc !! (name +:+ "_instFlux") = None ->
  apCorrMap loc !! (name +:+ "_instFluxErr") = None ->
  apCorrMap loc' !! (name +:+ "_instFlux") = None
  /\ apCorrMap loc' !! (name +:+ "_instFluxErr") = None.
Proof.
  induction entries as [|[n keys] rest IH]; intros loc w loc' w' Hkeyed Hsame Hins Hrun H1 H2.
  - cbn in Hrun. unfold ret in Hrun. inversion Hrun; subst. split; assumption.
  - cbn [forFields] in Hrun. bind_inv Hrun. rename a into loc1.
    inversion Hkeyed as [|? ? Hk Hrest]; subst. cbn in Hk. subst keys.
    pose proof (correctField_sameMeasurements task bbox subset1 n loc w) as Hstep.
    rewrite Hm in Hstep. cbn [snd] in Hstep.
    apply (IH loc1 w0 loc' w' Hrest).
    + eapply sameMeasurements_trans; [exact Hsame | exact Hstep].
    + intros keys Hin. apply Hins. right. exact Hin.
    + exact Hrun.
    + destruct (insufficient w task (keysOf n) subset1) eqn:Hcheck.
      * rewrite (correctField_insufficient _ _ _ _ _ _ _ Hcheck) in Hm.
        destruct (bool_decide _); inversion Hm; subst. exact H1.
      * assert (Hne : n <> name).
        { intros ->. specialize (Hins (keysOf name) ltac:(left)).
          unfold insufficient in Hcheck.
          rewrite (narrow_sameMeasurements _ _ _ _ Hsame) in Hcheck.
          apply Z.ltb_ge in Hcheck. lia. }
        rewrite (correctField_sufficient _ _ _ _ _ _ _ Hcheck) in Hm.
        destruct (adaptOrder _ _ _ _) as [ctrl|]; [|discriminate].
        apply fitField_returned in Hm.
        destruct Hm as (s & e & wLoop & field & _ & _ & -> & _). cbn [apCorrMap].
        rewrite lookup_insert_ne, lookup_insert_ne; [exact H1 | |].
        -- intros Heq. apply Hne. eapply append_inj_suffix. exact Heq.
        -- intros Heq. symmetry in Heq. exact (fluxName_not_fluxErrName _ _ Heq).
    + destruct (insufficient w task (keysOf n) subset1) eqn:Hcheck.
      * rewrite (correctField_insufficient _ _ _ _ _ _ _ Hcheck) in Hm.
        destruct (bool_decide _); inversion Hm; subst. exact H2.
      * assert (Hne : n <> name).
        { intros ->. specialize (Hins (keysOf name) ltac:(left)).
          unfold insufficient in Hcheck.
          rewrite (narrow_sameMeasurements _ _ _ _ Hsame) in Hcheck.
          apply Z.ltb_ge in Hcheck. lia. }
        rewrite (correctField_sufficient _ _ _ _ _ _ _ Hcheck) in Hm.
        destruct (adaptOrder _ _ _ _) as [ctrl|]; [|discriminate].
        apply fitField_returned in Hm.
        destruct Hm as (s & e & wLoop & field & _ & _ & -> & _). cbn [apCorrMap].
        rewrite lookup_insert_ne, lookup_insert_ne; [exact H2 | |].
        -- intros Heq. exact (fluxName_not_fluxErrName _ _ Heq).
        -- intros Heq. apply Hne. eapply append_inj_suffix. exact Heq.
Qed.

Lemma run_returned (task : MeasureApCorrTask BBox) exposure w m w' :
  run task exposure w = (Returned m, w') ->
  exists loc',
    forFields task (getBBox exposure)
              (selectSubset1 task (catalog w) exposure) (toCorrect task)
              {| apCorrMap := ∅; apCorrErr := None |}
              {| catalog := catalog w;
                 log := log w ++ [InfoMeasuring (length (toCorrect task))];
                 fitCalls := fitCalls w |}
    = (Returned loc', w')
    /\ m = apCorrMap loc'.
Proof.
  unfold run. intros Hrun. bind_inv Hrun. unfold logEvent in Hm.
  inversion Hm; subst; clear Hm. bind_inv Hrun. unfold getCatalog in Hm.
  inversion Hm; subst; clear Hm. cbn [catalog] in Hrun. bind_inv Hrun.
  unfold ret in Hrun. inversion Hrun; subst; clear Hrun.
  eexists. split; [exact Hm | reflexivity].
Qed.

(** *** The order loop exits *)

(** C7. With at least minDegreesOfFreedom + 1 points, one free parameter at
    orders (0, 0) and orders that start non-negative, the loop that lowers
    the orders exits: after some [k] passes, [k] at most the larger order,
    each pass taking one off each order that is positive; the orders never
    grow and stay non-negative; after as many passes as the larger order
    they are (0, 0), so the loop exits there at the latest; and the loop of
    [run], on its fuel, returns the orders it exits with. *)
Theorem C7_order_adaptation_terminates (n : nat) (m : Z) (ctrl : Control) (w : World) :
  Z.of_nat n - 1 >= m ->
  computeSize {| orderX := 0; orderY := 0; triangular := triangular ctrl |} = 1 ->
  0 <= orderX ctrl -> 0 <= orderY ctrl ->
  exists k ctrl',
    (k <= Z.to_nat (Z.max (orderX ctrl) (orderY ctrl)))%nat
    /\ ctrl' = Nat.iter k lowerOrder ctrl
    /\ (forall j, (j < k)%nat -> underConstrained n m (Nat.iter j lowerOrder ctrl) = true)
    /\ underConstrained n m ctrl' = false
    /\ (forall fuel, (k <= fuel)%nat -> adaptOrder fuel n m ctrl = Some ctrl')
    /\ reduceOrder n m ctrl w = (Returned ctrl', w)
    /\ (forall c, orderX (lowerOrder c) = (if 0 <? orderX c then orderX c - 1 else orderX c)
                  /\ orderY (lowerOrder c) = (if 0 <? orderY c then orderY c - 1 else orderY c))
    /\ (forall j, 0 <= orderX (Nat.iter (S j) lowerOrder ctrl) <= orderX (Nat.iter j lowerOrder ctrl)
                  /\ 0 <= orderY (Nat.iter (S j) lowerOrder ctrl) <= orderY (Nat.iter j lowerOrder ctrl))
    /\ 0 <= orderX ctrl' <= orderX ctrl /\ 0 <= orderY ctrl' <= orderY ctrl
    /\ Nat.iter (Z.to_nat (Z.max (orderX ctrl) (orderY ctrl))) lowerOrder ctrl
       = {| orderX := 0; orderY := 0; triangular := triangular ctrl |}.
Proof.
  intros Hn Hsize Hx Hy.
  destruct (adaptOrder_exit n m _ ctrl Hn Hsize Hx Hy eq_refl)
    as (k & Hk & Hbefore & Hexit & Hfuel).
  assert (Hstep : forall j,
    (0 <= orderX (Nat.iter j lowerOrder ctrl) /\ 0 <= orderY (Nat.iter j lowerOrder ctrl))
    /\ (orderX (Nat.iter j lowerOrder ctrl) <= orderX ctrl
        /\ orderY (Nat.iter j lowerOrder ctrl) <= orderY ctrl)).
  { induction j as [|j [[IHx IHy] [IHx' IHy']]]; [cbn; lia|].
    rewrite Nat.iter_succ, lowerOrder_orderX, lowerOrder_orderY.
    destruct (Z.ltb_spec 0 (orderX (Nat.iter j lowerOrder ctrl))),
             (Z.ltb_spec 0 (orderY (Nat.iter j lowerOrder ctrl))); lia. }
  exists k, (Nat.iter k lowerOrder ctrl).
  split; [exact Hk|]. split; [reflexivity|]. split; [exact Hbefore|].
  split; [exact Hexit|]. split; [exact Hfuel|]. split; [|split; [|split]].
  - unfold reduceOrder. rewrite Hfuel; [reflexivity | unfold orderFuel; lia].
  - intros c. split; [apply lowerOrder_orderX | apply lowerOrder_orderY].
  - intros j. destruct (Hstep j) as [[Hjx Hjy] _].
    rewrite Nat.iter_succ, lowerOrder_orderX, lowerOrder_orderY.
    destruct (Z.ltb_spec 0 (orderX (Nat.iter j lowerOrder ctrl))),
             (Z.ltb_spec 0 (orderY (Nat.iter j lowerOrder ctrl))); lia.
  - destruct (Hstep k) as [[Hkx Hky] [Hkx' Hky']].
    split; [lia|]. split; [lia|].
    rewrite (iter_lowerOrder_orders _ _ Hx Hy). f_equal; lia.
Qed.

(** *** A field that completes *)

Lemma fillArrays_wellFormed cat refKeys keys subset2 :
  wellFormed (fillArrays cat refKeys keys subset2).
Proof. unfold wellFormed, fillArrays. cbn. rewrite !length_fmap, length_seq. auto. Qed.

Lemma correctField_returned task bbox subset1 name keys loc w loc' w' :
  correctField task bbox subset1 name keys loc w = (Returned loc', w') ->
  insufficient w task keys subset1 = false ->
  exists ctrl s e wLoop field,
    adaptOrder (orderFuel (fitConfig (config task)))
               (length (narrow (catalog w) keys subset1))
               (minDegreesOfFreedom (config task)) (fitConfig (config task))
    = Some ctrl
    /\ clipLoop (Z.to_nat (numIter (config task))) bbox ctrl
                (numSigmaClip (config task))
                (fillArrays (catalog w) (refFluxKeys task) keys
                            (narrow (catalog w) keys subset1))
                (apCorrErr loc) w
       = (Returned (s, Some e), wLoop)
    /\ fit bbox (x s) (y s) (apCorrData s) ctrl = Some field
    /\ loc' = {| apCorrMap :=
                   <[name +:+ "_instFluxErr" := fromCoefficients bbox [[e]]]>
                     (<[name +:+ "_instFlux" := field]> (apCorrMap loc));
                 apCorrErr := Some e |}
    /\ w' = {| catalog := fold_left (markOne keys (narrow (catalog w) keys subset1))
                                    (indices s) (catalog w);
               log := log w ++ [InfoRms name (rms (residuals field s))
                                        (length (indices s))];
               fitCalls := fitCalls wLoop ++ [callOf s ctrl] |}.
Proof.
  intros Hrun Hcheck. rewrite (correctField_sufficient _ _ _ _ _ _ _ Hcheck) in Hrun.
  destruct (adaptOrder _ _ _ _) as [ctrl|]; [|discriminate].
  apply fitField_returned in Hrun. destruct Hrun as (s & e & wLoop & field & Hrest).
  exists ctrl, s, e, wLoop, field. split; [reflexivity | exact Hrest].
Qed.

(** C1, amended. For a field that completes after at least one pass of the
    clip loop, the scalar of the constant error surface is the value
    [apCorrErr] took in the last pass: the RMS of the residuals of the
    surface fitted in that pass, over the working set the pass started
    from, before its clip.  It is not computed again after the terminal
    fit. *)
Theorem C1_error_is_rms_of_last_pass (task : MeasureApCorrTask BBox) (bbox : BBox)
    (subset1 : list nat) (name : string) (keys : FluxKeys) (loc loc' : Locals Field)
    (w w' : World) :
  correctField task bbox subset1 name keys loc w = (Returned loc', w') ->
  insufficient w task keys subset1 = false ->
  0 < numIter (config task) ->
  exists ctrl sPrev ePrev wPrev fieldPrev,
    clipLoop (Z.to_nat (numIter (config task) - 1)) bbox ctrl
             (numSigmaClip (config task))
             (fillArrays (catalog w) (refFluxKeys task) keys
                         (narrow (catalog w) keys subset1))
             (apCorrErr loc) w
    = (Returned (sPrev, ePrev), wPrev)
    /\ wellFormed sPrev
    /\ fit bbox (x sPrev) (y sPrev) (apCorrData sPrev) ctrl = Some fieldPrev
    /\ apCorrMap loc' !! (name +:+ "_instFluxErr")
       = Some (fromCoefficients bbox [[rms (residuals fieldPrev sPrev)]])
    /\ rms (residuals fieldPrev sPrev)
       = numpy.pow_half
           (numpy.mean (numpy.square <$> (residual fieldPrev <$> rows sPrev))).
Proof.
  intros Hrun Hcheck Hiter.
  destruct (correctField_returned _ _ _ _ _ _ _ _ _ Hrun Hcheck)
    as (ctrl & s & e & wLoop & field & _ & Hloop & _ & -> & _).
  replace (Z.to_nat (numIter (config task)))
    with (S (Z.to_nat (numIter (config task) - 1))) in Hloop by lia.
  apply clipLoop_last in Hloop.
  destruct Hloop as (sPrev & ePrev & wPrev & fieldPrev & Hprev & _ & Hfit & He & _ & _).
  injection He as ->.
  assert (Hwf : wellFormed sPrev).
  { destruct (clipLoop_inv _ _ _ _ _ _ _ _ _ _ Hprev) as (_ & _ & _ & Hwf & _).
    apply Hwf, fillArrays_wellFormed. }
  exists ctrl, sPrev, ePrev, wPrev, fieldPrev.
  split; [exact Hprev|]. split; [exact Hwf|]. split; [exact Hfit|]. split.
  - cbn [apCorrMap]. apply lookup_insert_eq.
  - unfold rms. rewrite (residuals_rows _ _ Hwf). reflexivity.
Qed.

(** C2, amended. A field that completes made max(numIter, 0) + 1 calls of
    the fitter; the surface kept in the map is the one the last call, the
    terminal fit, returned; and when there was a pass of the clip loop, the
    terminal fit is made on the working set the last pass left after its
    clip: the rows of the set the last pass fitted that it kept. *)
Theorem C2_fits_performed (task : MeasureApCorrTask BBox) (bbox : BBox)
    (subset1 : list nat) (name : string) (keys : FluxKeys) (loc loc' : Locals Field)
    (w w' : World) :
  correctField task bbox subset1 name keys loc w = (Returned loc', w') ->
  insufficient w task keys subset1 = false ->
  exists ctrl calls sFinal field,
    fitCalls w' = fitCalls w ++ calls
    /\ Z.of_nat (length calls) = Z.max (numIter (config task)) 0 + 1
    /\ last calls = Some (callOf sFinal ctrl)
    /\ fit bbox (x sFinal) (y sFinal) (apCorrData sFinal) ctrl = Some field
    /\ apCorrMap loc' !! (name +:+ "_instFlux") = Some field
    /\ (0 < numIter (config task) ->
        exists sPrev fieldPrev,
          calls !! (length calls - 2)%nat = Some (callOf sPrev ctrl)
          /\ fit bbox (x sPrev) (y sPrev) (apCorrData sPrev) ctrl = Some fieldPrev
          /\ sFinal = clipped fieldPrev (numSigmaClip (config task)) sPrev
          /\ rows sFinal
             = filter (fun r => Is_true (PrimFloat.leb
                          (numpy.fabs (residual fieldPrev r))
                          (PrimFloat.mul (numSigmaClip (config task))
                                         (rms (residuals fieldPrev sPrev)))))
                      (rows sPrev)).
Proof.
  intros Hrun Hcheck.
  destruct (correctField_returned _ _ _ _ _ _ _ _ _ Hrun Hcheck)
    as (ctrl & s & e & wLoop & field & _ & Hloop & Hfit & -> & ->).
  destruct (clipLoop_inv _ _ _ _ _ _ _ _ _ _ Hloop)
    as (_ & _ & (loopCalls & HloopCalls & Hlen) & _ & _ & _).
  exists ctrl, (loopCalls ++ [callOf s ctrl]), s, field.
  split; [cbn; rewrite HloopCalls, app_assoc; reflexivity|].
  split; [rewrite length_app; cbn; lia|].
  split; [apply last_snoc|]. split; [exact Hfit|]. split.
  - cbn [apCorrMap]. rewrite lookup_insert_ne, lookup_insert_eq; [reflexivity|].
    intros Heq. symmetry in Heq. exact (fluxName_not_fluxErrName _ _ Heq).
  - intros Hiter.
    replace (Z.to_nat (numIter (config task)))
      with (S (Z.to_nat (numIter (config task) - 1))) in Hloop by lia.
    apply clipLoop_last in Hloop.
    destruct Hloop as (sPrev & ePrev & wPrev & fieldPrev & Hprev & _ & HfitPrev & _ & Hs & Hw).
    destruct (clipLoop_inv _ _ _ _ _ _ _ _ _ _ Hprev)
      as (_ & _ & (prevCalls & HprevCalls & HprevLen) & Hwf & _ & _).
    destruct Hwf as [Hwf _]; [apply fillArrays_wellFormed|].
    exists sPrev, fieldPrev. split; [|split; [exact HfitPrev | split; [exact Hs|]]].
    + assert (HloopCalls' : loopCalls = prevCalls ++ [callOf sPrev ctrl]).
      { subst wLoop. cbn in HloopCalls. rewrite HprevCalls, <- app_assoc in HloopCalls.
        apply app_inv_head in HloopCalls. symmetry. exact HloopCalls. }
      rewrite HloopCalls'. rewrite !length_app. cbn [length].
      replace (length prevCalls + 1 + 1 - 2)%nat with (length prevCalls) by lia.
      rewrite <- app_assoc. rewrite lookup_app_r by lia.
      replace (length prevCalls - length prevCalls)%nat with O by lia. reflexivity.
    + rewrite Hs. unfold clipped. rewrite rows_clip. unfold keepOf.
      rewrite (residuals_rows _ _ Hwf), <- list_fmap_compose.
      apply (mask_fmap (fun r => PrimFloat.leb (numpy.fabs (residual fieldPrev r)) _)).
Qed.

(** *** Invariants of the working set, and the records marked *)

(** C8. From one pass of the clip loop to the next, on the arrays filled
    from [subset2]: the four arrays keep one common length, which does not
    grow and starts at [len(subset2)]; the rows after a pass are, in order,
    some of the rows before it; and the index array lists, in increasing
    order, the positions in [subset2] of the points still present, each
    point carrying the coordinates and ratio filled in at its index. *)
Theorem C8_clip_loop_invariants (cat : list SourceRecord) (refKeys keys : FluxKeys)
    (subset2 : list nat) (bbox : BBox) (ctrl : Control) (nSigma : float) (n : nat)
    (e e2 : option float) (w w2 : World) (s2 : FitSample) :
  let s0 := fillArrays cat refKeys keys subset2 in
  clipLoop (S n) bbox ctrl nSigma s0 e w = (Returned (s2, e2), w2) ->
  exists s1 e1 w1,
    clipLoop n bbox ctrl nSigma s0 e w = (Returned (s1, e1), w1)
    /\ wellFormed s1 /\ wellFormed s2
    /\ (length (x s2) <= length (x s1) <= length subset2)%nat
    /\ sublist (rows s2) (rows s1)
    /\ membership s0 s1 /\ membership s0 s2
    /\ sublist (indices s2) (indices s1)
    /\ sublist (indices s1) (seq 0 (length subset2)).
Proof.
  intros s0 Hrun.
  assert (Hwf0 : wellFormed s0) by apply fillArrays_wellFormed.
  assert (Hseq : indices s0 = seq 0 (length (x s0))).
  { unfold s0, fillArrays. cbn. rewrite length_fmap. reflexivity. }
  assert (Hlen0 : length (x s0) = length subset2).
  { unfold s0, fillArrays. cbn. apply length_fmap. }
  apply clipLoop_last in Hrun.
  destruct Hrun as (s1 & e1 & w1 & field & Hprev & _ & _ & _ & Hs2 & _).
  destruct (clipLoop_inv _ _ _ _ _ _ _ _ _ _ Hprev) as (_ & _ & _ & Hwf & _ & _).
  destruct (Hwf Hwf0) as [Hwf1 Hsub1].
  assert (Hwf2 : wellFormed s2) by (rewrite Hs2; apply clip_wellFormed; exact Hwf1).
  assert (Hsub2 : sublist (rows s2) (rows s1)).
  { rewrite Hs2. unfold clipped. rewrite rows_clip. apply mask_sublist. }
  assert (Hm1 : membership s0 s1) by (apply membership_sublist; assumption).
  assert (Hm2 : membership s0 s2).
  { apply membership_sublist; try assumption. etransitivity; eassumption. }
  exists s1, e1, w1. split; [exact Hprev|]. split; [exact Hwf1|]. split; [exact Hwf2|].
  split; [|split; [exact Hsub2 | split; [exact Hm1 | split; [exact Hm2 | split]]]].
  - rewrite <- (rows_length s2 Hwf2), <- (rows_length s1 Hwf1), <- Hlen0,
            <- (rows_length s0 Hwf0).
    split; apply sublist_length; assumption.
  - destruct (rows_arrays s1 Hwf1) as (_ & _ & _ & ->).
    destruct (rows_arrays s2 Hwf2) as (_ & _ & _ & ->).
    apply fmap_sublist. exact Hsub2.
  - destruct Hm1 as [Hsub _]. rewrite Hseq, Hlen0 in Hsub. exact Hsub.
Qed.

(** C9. For a field that completes, with [sFinal] the working set the clip
    loop ends with: every record of the catalogue keeps its place, its
    position and its fluxes, and every flag but the field's "used" flag;
    the "used" flag of a record is set afterwards exactly when it was set
    before or the record is [subset2[i]] for an index [i] of [sFinal].
    And on every path of a run, records keep position and fluxes, and a
    flag that is set stays set. *)
Theorem C9_used_flags (task : MeasureApCorrTask BBox) (bbox : BBox)
    (subset1 : list nat) (name : string) (keys : FluxKeys) (loc loc' : Locals Field)
    (w w' : World) :
  correctField task bbox subset1 name keys loc w = (Returned loc', w') ->
  insufficient w task keys subset1 = false ->
  let subset2 := narrow (catalog w) keys subset1 in
  exists ctrl sFinal apCorrErr' wLoop,
    clipLoop (Z.to_nat (numIter (config task))) bbox ctrl
             (numSigmaClip (config task))
             (fillArrays (catalog w) (refFluxKeys task) keys subset2)
             (apCorrErr loc) w
    = (Returned (sFinal, apCorrErr'), wLoop)
    /\ length (catalog w') = length (catalog w)
    /\ (forall j r, catalog w !! j = Some r ->
          exists r', catalog w' !! j = Some r'
            /\ getX r' = getX r /\ getY r' = getY r /\ getFloat r' = getFloat r
            /\ (forall k, k <> used keys -> getFlag r' k = getFlag r k)
            /\ getFlag r' (used keys)
               = getFlag r (used keys)
                 || bool_decide (j ∈ survivors subset2 (indices sFinal)))
    /\ (forall exposure w0, frame (catalog w0) (catalog (run task exposure w0).2)).
Proof.
  intros Hrun Hcheck subset2.
  destruct (correctField_returned _ _ _ _ _ _ _ _ _ Hrun Hcheck)
    as (ctrl & s & e & wLoop & field & _ & Hloop & _ & _ & ->).
  exists ctrl, s, (Some e), wLoop. split; [exact Hloop|]. cbn [catalog].
  split; [|split].
  - apply (fold_markOne_frame keys subset2 (indices s) (catalog w)).
  - intros j r Hj. exact (fold_markOne_spec keys subset2 (indices s) (catalog w) j r Hj).
  - intros exposure w0. apply run_frame.
Qed.

(** *** The sample-size test *)

(** C4. The test of the sample size, made on all of [subset2] before any
    call of the fitter.  When [len(subset2) - 1 < minDegreesOfFreedom]: a
    field outside [allowFailure] raises the error that carries its name,
    the number of sources and the number required, in the world as it
    was; a field in [allowFailure] only logs the warning, leaves the map
    as it was, and has no entry in the map a run returns.  Otherwise no
    such error is raised for the field. *)
Theorem C4_minimum_sample_policy (task : MeasureApCorrTask BBox) (bbox : BBox)
    (subset1 : list nat) (name : string) (keys : FluxKeys) (loc : Locals Field)
    (w : World) :
  let n := length (narrow (catalog w) keys subset1) in
  let m := minDegreesOfFreedom (config task) in
  (Z.of_nat n - 1 < m -> name ∉ allowFailure (config task) ->
     correctField task bbox subset1 name keys loc w
     = (Raised (RuntimeError name n (m + 1)), w))
  /\ (Z.of_nat n - 1 < m -> name ∈ allowFailure (config task) ->
     correctField task bbox subset1 name keys loc w
     = (Returned loc,
        {| catalog := catalog w; log := log w ++ [WarnUnable name n (m + 1)];
           fitCalls := fitCalls w |}))
  /\ (Z.of_nat n - 1 >= m ->
     forall field k required,
       (correctField task bbox subset1 name keys loc w).1
       <> Raised (RuntimeError field k required))
  /\ (forall exposure w0 apCorr w',
       keyed (toCorrect task) -> (name, keys) ∈ toCorrect task ->
       Z.of_nat (length (narrow (catalog w0) keys
                                (selectSubset1 task (catalog w0) exposure))) - 1 < m ->
       run task exposure w0 = (Returned apCorr, w') ->
       apCorr !! (name +:+ "_instFlux") = None
       /\ apCorr !! (name +:+ "_instFluxErr") = None).
Proof.
  intros n m. split; [|split; [|split]].
  - intros Hlt Hnot.
    assert (Hcheck : insufficient w task keys subset1 = true)
      by (apply Z.ltb_lt; exact Hlt).
    rewrite (correctField_insufficient _ _ _ _ _ _ _ Hcheck).
    rewrite bool_decide_eq_false_2 by exact Hnot. reflexivity.
  - intros Hlt Hin.
    assert (Hcheck : insufficient w task keys subset1 = true)
      by (apply Z.ltb_lt; exact Hlt).
    rewrite (correctField_insufficient _ _ _ _ _ _ _ Hcheck).
    rewrite bool_decide_eq_true_2 by exact Hin. reflexivity.
  - intros Hge. apply correctField_no_RuntimeError. apply Z.ltb_ge.
    fold n m. lia.
  - intros exposure w0 apCorr w' Hkeyed Hentry Hlt Hrun.
    apply run_returned in Hrun. destruct Hrun as (loc' & Hloop & ->).
    assert (Hins : forall keys', (name, keys') ∈ toCorrect task ->
              Z.of_nat (length (narrow (catalog w0) keys'
                          (selectSubset1 task (catalog w0) exposure))) - 1
              < minDegreesOfFreedom (config task)).
    { intros keys' Hin'.
      assert (Hk : keys = keysOf name)
        by exact (proj1 (Forall_forall _ _) Hkeyed (name, keys) Hentry).
      assert (Hk' : keys' = keysOf name)
        by exact (proj1 (Forall_forall _ _) Hkeyed (name, keys') Hin').
      rewrite Hk', <- Hk. exact Hlt. }
    exact (forFields_absent task (getBBox exposure) _ (catalog w0) name _ _
             {| catalog := catalog w0; log := _; fitCalls := _ |} _ _
             Hkeyed (sameMeasurements_refl _) Hins Hloop
             (lookup_empty _) (lookup_empty _)).
Qed.

(** C3, amended. The error of the sample-size test is never raised for a
    field with exactly minDegreesOfFreedom + 1 usable points, and always
    for one with minDegreesOfFreedom or minDegreesOfFreedom - 1 (a field in
    [allowFailure] logs the warning and is skipped instead). *)
Theorem C3_threshold_is_m_plus_one (task : MeasureApCorrTask BBox) (bbox : BBox)
    (subset1 : list nat) (name : string) (keys : FluxKeys) (loc : Locals Field)
    (w : World) :
  let n := length (narrow (catalog w) keys subset1) in
  let m := minDegreesOfFreedom (config task) in
  (Z.of_nat n = m + 1 ->
     insufficient w task keys subset1 = false
     /\ forall field k required,
          (correctField task bbox subset1 name keys loc w).1
          <> Raised (RuntimeError field k required))
  /\ (Z.of_nat n = m \/ Z.of_nat n = m - 1 ->
      insufficient w task keys subset1 = true
      /\ (name ∉ allowFailure (config task) ->
          correctField task bbox subset1 name keys loc w
          = (Raised (RuntimeError name n (m + 1)), w))
      /\ (name ∈ allowFailure (config task) ->
          correctField task bbox subset1 name keys loc w
          = (Returned loc,
             {| catalog := catalog w; log := log w ++ [WarnUnable name n (m + 1)];
                fitCalls := fitCalls w |}))).
Proof.
  intros n m. split.
  - intros Hn.
    assert (Hcheck : insufficient w task keys subset1 = false)
      by (apply Z.ltb_ge; fold n m; lia).
    split; [exact Hcheck | apply correctField_no_RuntimeError; exact Hcheck].
  - intros Hn.
    assert (Hcheck : insufficient w task keys subset1 = true)
      by (apply Z.ltb_lt; fold n m; lia).
    split; [exact Hcheck|]. split; intros Hallow;
      rewrite (correctField_insufficient _ _ _ _ _ _ _ Hcheck).
    + rewrite bool_decide_eq_false_2 by exact Hallow. reflexivity.
    + rewrite bool_decide_eq_true_2 by exact Hallow. reflexivity.
Qed.

(** *** No pass of the clip loop *)

Lemma fitField_no_pass task bbox name keys subset2 ctrl s0 loc w loc' w' :
  (Z.to_nat (numIter (config task)) = 0)%nat -> apCorrErr loc = None ->
  fitField task bbox name keys subset2 ctrl s0 loc w <> (Returned loc', w').
Proof.
  intros Hiter Hunbound Hrun. apply fitField_returned in Hrun.
  destruct Hrun as (s & e & wLoop & field & Hloop & _).
  rewrite Hiter, Hunbound in Hloop. cbn in Hloop. discriminate.
Qed.

Lemma forFields_no_pass task bbox subset1 entries : forall loc w loc' w',
  (Z.to_nat (numIter (config task)) = 0)%nat -> apCorrErr loc = None ->
  forFields task bbox subset1 entries loc w = (Returned loc', w') -> loc' = loc.
Proof.
  induction entries as [|[n keys] rest IH]; intros loc w loc' w' Hiter Hunbound Hrun.
  - cbn in Hrun. unfold ret in Hrun. inversion Hrun; reflexivity.
  - cbn [forFields] in Hrun. bind_inv Hrun. rename a into loc1.
    assert (Hloc1 : loc1 = loc).
    { destruct (insufficient w task keys subset1) eqn:Hcheck.
      - rewrite (correctField_insufficient _ _ _ _ _ _ _ Hcheck) in Hm.
        destruct (bool_decide _); inversion Hm; reflexivity.
      - rewrite (correctField_sufficient _ _ _ _ _ _ _ Hcheck) in Hm.
        destruct (adaptOrder _ _ _ _) as [ctrl|]; [|discriminate].
        exfalso. exact (fitField_no_pass _ _ _ _ _ _ _ _ _ _ _ Hiter Hunbound Hm). }
    subst loc1. exact (IH loc w0 loc' w' Hiter Hunbound Hrun).
Qed.

(** With at least one pass, [apCorrErr] is bound when it is read. *)
Lemma correctField_bound task bbox subset1 name keys loc w :
  0 < numIter (config task) ->
  forall variable,
    (correctField task bbox subset1 name keys loc w).1
    <> Raised (UnboundLocalError variable).
Proof.
  intros Hiter variable.
  destruct (insufficient w task keys subset1) eqn:Hcheck.
  - rewrite (correctField_insufficient _ _ _ _ _ _ _ Hcheck).
    destruct (bool_decide _); discriminate.
  - rewrite (correctField_sufficient _ _ _ _ _ _ _ Hcheck).
    destruct (adaptOrder _ _ _ _) as [ctrl|]; [|discriminate].
    unfold fitField, bind.
    match goal with |- context [clipLoop ?n ?b ?c ?g ?s ?e ?w0] =>
      pose proof (clipLoop_cases n b c g s e w0) as [_ Hout];
      destruct (clipLoop n b c g s e w0) as [[[s1 e1]| ex|] w1] eqn:Hloop end;
      cbn [fst snd] in *.
    + apply clipLoop_inv in Hloop. destruct Hloop as (_ & _ & _ & _ & _ & Hsome).
      destruct Hsome as [e He]; [lia|]. subst e1.
      destruct (callFit_cases bbox s1 ctrl w1) as [-> | [f ->]]; discriminate.
    + destruct Hout as [Hout | [r Hout]]; [|discriminate].
      injection Hout as ->. discriminate.
    + discriminate.
Qed.

(** C10. With [numIter = 0] and [apCorrErr] not bound, as it is when [run]
    starts, a field that passes the sample-size test, whose orders are
    lowered to [ctrl] and whose terminal fit returns, raises the
    unbound-variable error on [apCorrErr]; and a run with [numIter = 0]
    that returns returns the empty map, no field having completed. *)
Theorem C10_numIter_zero_raises_unbound (task : MeasureApCorrTask BBox) (bbox : BBox)
    (subset1 : list nat) (name : string) (keys : FluxKeys) (loc : Locals Field)
    (w : World) (ctrl : Control) (field : Field) :
  let subset2 := narrow (catalog w) keys subset1 in
  let s0 := fillArrays (catalog w) (refFluxKeys task) keys subset2 in
  numIter (config task) = 0 ->
  apCorrErr loc = None ->
  insufficient w task keys subset1 = false ->
  adaptOrder (orderFuel (fitConfig (config task))) (length subset2)
             (minDegreesOfFreedom (config task)) (fitConfig (config task))
  = Some ctrl ->
  fit bbox (x s0) (y s0) (apCorrData s0) ctrl = Some field ->
  (correctField task bbox subset1 name keys loc w).1
  = Raised (UnboundLocalError "apCorrErr")
  /\ (forall exposure w0 apCorr w',
        run task exposure w0 = (Returned apCorr, w') -> apCorr = ∅).
Proof.
  intros subset2 s0 Hiter Hunbound Hcheck Hadapt Hfit. split.
  - rewrite (correctField_sufficient _ _ _ _ _ _ _ Hcheck). fold subset2.
    rewrite Hadapt. fold s0. unfold fitField. rewrite Hiter, Hunbound.
    erewrite bind_step by reflexivity. cbn [fst snd].
    erewrite bind_step by (apply callFit_returned; exact Hfit). reflexivity.
  - intros exposure w0 apCorr w' Hrun. apply run_returned in Hrun.
    destruct Hrun as (loc' & Hloop & ->).
    apply forFields_no_pass in Hloop; [subst loc'; reflexivity | | reflexivity].
    rewrite Hiter. reflexivity.
Qed.

End Properties.

(** ** Instances of the theorems on the concrete library *)

Import Example ConstantSurface.

Lemma C7_witness :
  exists k ctrl',
    (k <= 2)%nat
    /\ ctrl' = Nat.iter k lowerOrder {| orderX := 2; orderY := 1; triangular := false |}
    /\ underConstrained 3 1 ctrl' = false.
Proof.
  destruct (C7_order_adaptation_terminates 3 1
              {| orderX := 2; orderY := 1; triangular := false |} (world [])
              ltac:(cbn; lia) eq_refl ltac:(cbn; lia) ltac:(cbn; lia))
    as (k & ctrl' & Hk & Hc & _ & Hexit & _).
  exists k, ctrl'. split; [exact Hk|]. split; [exact Hc | exact Hexit].
Defined.

Lemma float_two_not_zero : 2%float <> 0%float.
Proof.
  intros Heq. apply (f_equal (fun f => PrimFloat.eqb f 2%float)) in Heq.
  vm_compute in Heq. discriminate.
Qed.

Lemma outlierField_returned :
  outlierField = (Returned outlierLocals, outlierField.2).
Proof. vm_compute. reflexivity. Qed.

(** C1, as stated, fails: after the one pass of the loop the map holds the
    error 2, the RMS of the pass's fit over all five points, while the RMS
    of the terminal fit over the four points left is 0. *)
Lemma C1_counterexample :
  exists apCorr field terminal stored,
    outlierRun.1 = Returned apCorr
    /\ apCorr !! "f_instFlux" = Some field
    /\ last (fitCalls outlierRun.2) = Some terminal
    /\ apCorr !! "f_instFluxErr" = Some [[stored]]
    /\ stored = 2%float
    /\ finalFitRms field terminal = 0%float
    /\ stored <> finalFitRms field terminal.
Proof.
  eexists _, [[1%float]],
    {| fit_x := [0; 1; 2; 3]%float; fit_y := [0; 0; 0; 0]%float;
       fit_data := [1; 1; 1; 1]%float; fit_ctrl := order0 |}, 2%float.
  split; [vm_compute; reflexivity|].
  split; [vm_compute; reflexivity|].
  split; [vm_compute; reflexivity|].
  split; [vm_compute; reflexivity|].
  split; [reflexivity|].
  split; [vm_compute; reflexivity|].
  intros Heq. vm_compute in Heq. exact (float_two_not_zero Heq).
Qed.

(** C2, as stated, fails: the fit inside the last pass is made on five
    points, the terminal fit on the four the pass kept. *)
Lemma C2_counterexample :
  exists inLoop terminal,
    numIter (config onePass) = 1
    /\ fitCalls outlierRun.2 = [inLoop; terminal]
    /\ fit_data inLoop = [1; 1; 1; 1; 6]%float
    /\ fit_data terminal = [1; 1; 1; 1]%float
    /\ fit_data inLoop <> fit_data terminal.
Proof.
  eexists _, _. split; [reflexivity|].
  split; [vm_compute; reflexivity|].
  split; [reflexivity|]. split; [reflexivity|]. cbn. discriminate.
Qed.

(** C3, as stated, fails: with minDegreesOfFreedom = 1, a field with exactly
    one usable point raises the error. *)
Lemma C3_counterexample :
  minDegreesOfFreedom (config onePass) = 1
  /\ length (narrow singleCat (keysOf "f")
                    (selectSubset1 onePass singleCat (mkExposure tt))) = 1%nat
  /\ (run onePass (mkExposure tt) (world singleCat)).1
     = Raised (RuntimeError "f" 1 2).
Proof. repeat split; vm_compute; reflexivity. Qed.

(** Two usable points are enough for minDegreesOfFreedom = 1. *)
Example two_points_suffice :
  exists apCorr, (run onePass (mkExposure tt) (world pairCat)).1 = Returned apCorr.
Proof. eexists. vm_compute. reflexivity. Qed.

(** One usable point, the field in [allowFailure]: a warning, no fit, and an
    empty map. *)
Example allowed_failure_is_skipped :
  let r := run (task (cfg 1 1.5%float ["f"])) (mkExposure tt) (world singleCat) in
  r.1 = Returned ∅
  /\ log r.2 = [InfoMeasuring 1; WarnUnable "f" 1 2]
  /\ fitCalls r.2 = [].
Proof. repeat split; vm_compute; reflexivity. Qed.

(** The "used" flags after the run on [outlierCat]: the outlier is not marked. *)
Example outlier_not_used :
  (fun record => getFlag record (used (keysOf "f"))) <$> catalog outlierRun.2
  = [true; true; true; true; false].
Proof. vm_compute. reflexivity. Qed.

Lemma C1_witness :
  exists ctrl sPrev ePrev wPrev fieldPrev,
    clipLoop 0 tt ctrl 1.5%float outlierSample None (world outlierCat)
    = (Returned (sPrev, ePrev), wPrev)
    /\ fit tt (x sPrev) (y sPrev) (apCorrData sPrev) ctrl = Some fieldPrev
    /\ apCorrMap outlierLocals !! "f_instFluxErr"
       = Some [[rms (residuals fieldPrev sPrev)]].
Proof.
  destruct (C1_error_is_rms_of_last_pass onePass tt allStars "f" (keysOf "f")
              noLocals outlierLocals (world outlierCat) outlierField.2
              outlierField_returned eq_refl eq_refl)
    as (ctrl & sPrev & ePrev & wPrev & fieldPrev & Hloop & _ & Hfit & Hmap & _).
  exists ctrl, sPrev, ePrev, wPrev, fieldPrev.
  split; [exact Hloop|]. split; [exact Hfit | exact Hmap].
Defined.

Lemma C2_witness :
  exists ctrl calls sFinal field,
    fitCalls outlierField.2 = calls
    /\ Z.of_nat (length calls) = 2
    /\ last calls = Some (callOf sFinal ctrl)
    /\ apCorrMap outlierLocals !! "f_instFlux" = Some field.
Proof.
  destruct (C2_fits_performed onePass tt allStars "f" (keysOf "f")
              noLocals outlierLocals (world outlierCat) outlierField.2
              outlierField_returned eq_refl)
    as (ctrl & calls & sFinal & field & Hcalls & Hlen & Hlast & _ & Hmap & _).
  exists ctrl, calls, sFinal, field.
  split; [exact Hcalls|]. split; [exact Hlen|]. split; [exact Hlast | exact Hmap].
Defined.

Lemma C5_witness :
  exists s' w',
    clipIteration tt order0 1.5%float outlierSample (world outlierCat)
    = (Returned (s', 2%float), w')
    /\ wellFormed s'.
Proof.
  destruct (@C5_clip_iteration unit (list (list float)) api tt order0 1.5%float outlierSample (world outlierCat)
              [[2%float]] (fillArrays_wellFormed _ _ _ _)
              eq_refl)
    as (s' & w' & Hrun & _ & _ & Hwf & _).
  exists s', w'. split; [exact Hrun | exact Hwf].
Defined.

Lemma outlierLoop_returned :
  outlierLoop = (Returned (keptSample, Some 2%float), outlierLoop.2).
Proof. vm_compute. reflexivity. Qed.

Lemma C8_witness :
  exists s1 e1 w1,
    clipLoop 0 tt order0 1.5%float outlierSample None (world outlierCat)
    = (Returned (s1, e1), w1)
    /\ wellFormed s1 /\ wellFormed keptSample
    /\ (length (x keptSample) <= length (x s1) <= 5)%nat.
Proof.
  destruct (@C8_clip_loop_invariants unit (list (list float)) api
              outlierCat (keysOf "ref") (keysOf "f") allStars tt order0 1.5%float
              0%nat None (Some 2%float) (world outlierCat) outlierLoop.2 keptSample
              outlierLoop_returned)
    as (s1 & e1 & w1 & Hprev & Hwf1 & Hwf2 & Hlen & _).
  exists s1, e1, w1. split; [exact Hprev|]. split; [exact Hwf1|].
  split; [exact Hwf2 | exact Hlen].
Defined.

Lemma C9_witness :
  length (catalog outlierField.2) = length outlierCat
  /\ frame outlierCat (catalog outlierRun.2).
Proof.
  destruct (C9_used_flags onePass tt allStars "f" (keysOf "f")
              noLocals outlierLocals (world outlierCat) outlierField.2
              outlierField_returned eq_refl)
    as (ctrl & sFinal & e & wLoop & _ & Hlen & _ & Hframe).
  split; [exact Hlen | exact (Hframe (mkExposure tt) (world outlierCat))].
Defined.

Lemma C10_witness :
  (correctField noPass tt allStars "f" (keysOf "f") noLocals (world outlierCat)).1
  = Raised (UnboundLocalError "apCorrErr").
Proof.
  exact (proj1 (@C10_numIter_zero_raises_unbound unit (list (list float)) api
                  noPass tt allStars "f" (keysOf "f") noLocals (world outlierCat)
                  order0 [[2%float]] eq_refl eq_refl eq_refl eq_refl eq_refl)).
Defined.

(** * Further properties *)

(** ** Floats: NaN spreads through the arithmetic *)

Lemma Prim2SF_is_nan (f : float) :
  Prim2SF f = S754_nan -> PrimFloat.is_nan f = true.
Proof.
  intros Hnan. unfold PrimFloat.is_nan. rewrite FloatAxioms.eqb_spec, Hnan. reflexivity.
Qed.

Lemma add_nan_l (a b : float) :
  PrimFloat.is_nan a = true -> PrimFloat.is_nan (PrimFloat.add a b) = true.
Proof.
  intros Ha. apply Prim2SF_is_nan. rewrite add_spec, (is_nan_Prim2SF a Ha). reflexivity.
Qed.

Lemma add_nan_r (a b : float) :
  PrimFloat.is_nan b = true -> PrimFloat.is_nan (PrimFloat.add a b) = true.
Proof.
  intros Hb. apply Prim2SF_is_nan. rewrite add_spec, (is_nan_Prim2SF b Hb).
  unfold SF64add, SFadd. destruct (Prim2SF a); reflexivity.
Qed.

Lemma square_nan (a : float) :
  PrimFloat.is_nan a = true -> PrimFloat.is_nan (numpy.square a) = true.
Proof.
  intros Ha. apply Prim2SF_is_nan. unfold numpy.square.
  rewrite mul_spec, (is_nan_Prim2SF a Ha). reflexivity.
Qed.

Lemma mul_nan_r (a b : float) :
  PrimFloat.is_nan b = true -> PrimFloat.is_nan (PrimFloat.mul a b) = true.
Proof.
  intros Hb. apply Prim2SF_is_nan. rewrite mul_spec, (is_nan_Prim2SF b Hb).
  unfold SF64mul, SFmul. destruct (Prim2SF a); reflexivity.
Qed.

Lemma div_nan_l (a b : float) :
  PrimFloat.is_nan a = true -> PrimFloat.is_nan (PrimFloat.div a b) = true.
Proof.
  intros Ha. apply Prim2SF_is_nan. rewrite div_spec, (is_nan_Prim2SF a Ha). reflexivity.
Qed.

Lemma sqrt_nan (a : float) :
  PrimFloat.is_nan a = true -> PrimFloat.is_nan (PrimFloat.sqrt a) = true.
Proof.
  intros Ha. apply Prim2SF_is_nan. rewrite sqrt_spec, (is_nan_Prim2SF a Ha). reflexivity.
Qed.

Lemma leb_nan_r (a lim : float) :
  PrimFloat.is_nan lim = true -> PrimFloat.leb a lim = false.
Proof.
  intros Hlim. rewrite leb_spec, (is_nan_Prim2SF lim Hlim).
  unfold SFleb, SFcompare. destruct (Prim2SF a); reflexivity.
Qed.

Lemma sum_from_nan (l : list float) (acc : float) :
  PrimFloat.is_nan acc = true ->
  PrimFloat.is_nan (fold_left PrimFloat.add l acc) = true.
Proof.
  revert acc. induction l as [|a l IH]; intros acc Hacc; [exact Hacc|].
  cbn. apply IH, add_nan_l, Hacc.
Qed.

Lemma sum_with_nan (l : list float) (acc : float) :
  Exists (fun a => PrimFloat.is_nan a = true) l ->
  PrimFloat.is_nan (fold_left PrimFloat.add l acc) = true.
Proof.
  intros Hex. revert acc. induction Hex as [a l Ha | a l _ IH]; intros acc; cbn.
  - apply sum_from_nan, add_nan_r, Ha.
  - apply IH.
Qed.

Lemma rms_nan (diffs : list float) :
  Exists (fun d => PrimFloat.is_nan d = true) diffs ->
  PrimFloat.is_nan (rms diffs) = true.
Proof.
  intros Hex. unfold rms, numpy.pow_half, numpy.mean, numpy.sum.
  apply sqrt_nan, div_nan_l, sum_with_nan.
  apply Exists_fmap. eapply Exists_impl; [exact Hex|].
  intros d Hd. apply square_nan, Hd.
Qed.

Lemma rms_empty : PrimFloat.is_nan (rms []) = true.
Proof. vm_compute. reflexivity. Qed.

(** A strictly positive float is not zero (and not NaN). *)
Lemma positive_not_zero (f : float) :
  PrimFloat.ltb PrimFloat.zero f = true ->
  PrimFloat.eqb f PrimFloat.zero = false /\ PrimFloat.is_nan f = false.
Proof.
  rewrite ltb_spec. unfold PrimFloat.is_nan. rewrite !FloatAxioms.eqb_spec.
  replace (Prim2SF PrimFloat.zero) with (S754_zero false) by (vm_compute; reflexivity).
  destruct (Prim2SF f) as [s| s| |s m e]; cbn; try discriminate.
  - destruct s; [discriminate|]. intros _. split; reflexivity.
  - destruct s; [discriminate|]. intros _. split; [reflexivity|].
    unfold SFeqb, SFcompare. rewrite Z.compare_refl, Pos.compare_cont_refl. reflexivity.
Qed.

Lemma mask_all_false {A : Type} (l : list A) (keep : list bool) :
  Forall (fun k => k = false) keep -> numpy.mask l keep = [].
Proof.
  intros Hall. revert l. induction Hall as [|k keep -> _ IH]; intros [|a l]; cbn; auto.
Qed.

Lemma wellFormed_empty (s : FitSample) : wellFormed s -> x s = [] -> s = emptySample.
Proof.
  destruct s as [xs ys ds ix]. unfold wellFormed. cbn. intros (Hy & Hd & Hi) ->.
  cbn in *. apply nil_length_inv in Hy, Hd, Hi. subst. reflexivity.
Qed.


Section Further.
Context {BBox Field : Type} `{!ChebyshevApi BBox Field}.

(** *** The records a ratio is taken of *)

(** X1. Every record of [subset2] is a record of the catalogue that the
    selector returned; its reference flux is unflagged and finite, and its
    own flux is unflagged, finite, strictly positive and so not zero: the
    division of line 259 never has a zero (or NaN) divisor. *)
Theorem X1_subset2_records_divide_safely (task : MeasureApCorrTask BBox)
    (cat : list SourceRecord) (exposure : Exposure BBox) (keys : FluxKeys) (ref : nat) :
  ref ∈ narrow cat keys (selectSubset1 task cat exposure) ->
  exists record,
    cat !! ref = Some record
    /\ ref ∈ sourceSelector task cat exposure
    /\ getFlag record (flag (refFluxKeys task)) = false
    /\ numpy.isfinite (getFloat record (flux (refFluxKeys task))) = true
    /\ getFlag record (flag keys) = false
    /\ numpy.isfinite (getFloat record (flux keys)) = true
    /\ PrimFloat.ltb PrimFloat.zero (getFloat record (flux keys)) = true
    /\ PrimFloat.eqb (getFloat record (flux keys)) PrimFloat.zero = false
    /\ PrimFloat.is_nan (getFloat record (flux keys)) = false.
Proof.
  rewrite narrow_filter. intros Hin. apply list_elem_of_filter in Hin.
  destruct Hin as [Husable Hin]. unfold selectSubset1 in Hin.
  apply list_elem_of_filter in Hin. destruct Hin as [Hgood Hsel].
  unfold isRefGood in Hgood. destruct (cat !! ref) as [record|] eqn:Hrec; [|contradiction].
  exists record. split; [reflexivity|]. split; [exact Hsel|].
  apply Is_true_true, andb_true_iff in Hgood. destruct Hgood as [Hflag Hfin].
  apply negb_true_iff in Hflag.
  unfold usable in Husable. rewrite (list_lookup_total_correct _ _ _ Hrec) in Husable.
  apply Is_true_true in Husable. apply andb_true_iff in Husable.
  destruct Husable as [Husable Hpos]. apply andb_true_iff in Husable.
  destruct Husable as [Hflag' Hfin']. apply negb_true_iff in Hflag'.
  destruct (positive_not_zero _ Hpos) as [Hnz Hnn].
  repeat split; assumption.
Qed.

(** *** The order loop, again *)

Lemma adaptOrder_Some fuel n m : forall ctrl ctrl',
  adaptOrder fuel n m ctrl = Some ctrl' ->
  underConstrained n m ctrl' = false
  /\ orderX ctrl' <= orderX ctrl /\ orderY ctrl' <= orderY ctrl
  /\ triangular ctrl' = triangular ctrl.
Proof.
  induction fuel as [|fuel IH]; intros ctrl ctrl'; cbn [adaptOrder];
    destruct (underConstrained n m ctrl) eqn:Hunder; try discriminate.
  - intros [= <-]. repeat split; (exact Hunder || lia).
  - intros Hrec. destruct (IH _ _ Hrec) as (Hexit & Hx & Hy & Htri).
    rewrite lowerOrder_orderX in Hx. rewrite lowerOrder_orderY in Hy.
    rewrite lowerOrder_triangular in Htri.
    destruct (Z.ltb_spec 0 (orderX ctrl)), (Z.ltb_spec 0 (orderY ctrl));
      repeat split; (exact Hexit || exact Htri || lia).
  - intros [= <-]. repeat split; (exact Hunder || lia).
Qed.

(** X5. The orders the loop exits with are a fixed point of it: run again
    on them, on any fuel, it returns them unchanged; and it never raises an
    order nor changes the triangular flag. *)
Theorem X5_order_adaptation_idempotent (fuel fuel' n : nat) (m : Z) (ctrl ctrl' : Control) :
  adaptOrder fuel n m ctrl = Some ctrl' ->
  adaptOrder fuel' n m ctrl' = Some ctrl'
  /\ orderX ctrl' <= orderX ctrl /\ orderY ctrl' <= orderY ctrl
  /\ triangular ctrl' = triangular ctrl.
Proof.
  intros Hrun. destruct (adaptOrder_Some _ _ _ _ _ Hrun) as (Hexit & Hrest).
  split; [|exact Hrest]. destruct fuel'; cbn; rewrite Hexit; reflexivity.
Qed.

Lemma adaptOrder_stuck fuel n m ctrl :
  lowerOrder ctrl = ctrl -> underConstrained n m ctrl = true ->
  adaptOrder fuel n m ctrl = None.
Proof.
  intros Hfix Hunder. induction fuel as [|fuel IH]; cbn [adaptOrder]; rewrite Hunder;
    [reflexivity|]. rewrite Hfix. exact IH.
Qed.

(** X6. With no positive order to lower and too few points for the
    configured orders, the loop of lines 245-249 changes nothing and never
    exits: on any fuel it gives no result, and a field that passed the
    sample-size test does not return. *)
Theorem X6_order_loop_diverges (task : MeasureApCorrTask BBox) (bbox : BBox)
    (subset1 : list nat) (name : string) (keys : FluxKeys) (loc : Locals Field)
    (w : World) :
  let ctrl := fitConfig (config task) in
  let n := length (narrow (catalog w) keys subset1) in
  orderX ctrl <= 0 -> orderY ctrl <= 0 ->
  insufficient w task keys subset1 = false ->
  underConstrained n (minDegreesOfFreedom (config task)) ctrl = true ->
  lowerOrder ctrl = ctrl
  /\ (forall fuel, adaptOrder fuel n (minDegreesOfFreedom (config task)) ctrl = None)
  /\ correctField task bbox subset1 name keys loc w = (Diverged, w).
Proof.
  intros ctrl n Hx Hy Hcheck Hunder.
  assert (Hfix : lowerOrder ctrl = ctrl) by (apply lowerOrder_fixed; assumption).
  split; [exact Hfix|]. split.
  - intros fuel. apply adaptOrder_stuck; assumption.
  - rewrite (correctField_sufficient _ _ _ _ _ _ _ Hcheck).
    fold ctrl n. rewrite (adaptOrder_stuck _ _ _ _ Hfix Hunder). reflexivity.
Qed.

(** *** NaN residuals and the empty working set *)

Lemma clipped_rows_nil (field : Field) (nSigma : float) (s : FitSample) :
  wellFormed s ->
  PrimFloat.is_nan (rms (residuals field s)) = true ->
  clipped field nSigma s = emptySample.
Proof.
  intros Hwf Hnan. apply wellFormed_empty.
  - apply clip_wellFormed, Hwf.
  - unfold clipped, clip. cbn. apply mask_all_false. unfold keepOf.
    apply Forall_fmap, Forall_forall. intros d _. cbn.
    apply leb_nan_r, mul_nan_r, Hnan.
Qed.

(** X3. One NaN residual spoils a whole pass: the mean of the squares is
    NaN, so is [apCorrErr] and so is the clipping limit; every comparison
    with it is false and the pass keeps no point at all. *)
Theorem X3_nan_residual_empties_the_set (bbox : BBox) (ctrl : Control) (nSigma : float)
    (s : FitSample) (w : World) (field : Field) :
  wellFormed s ->
  fit bbox (x s) (y s) (apCorrData s) ctrl = Some field ->
  Exists (fun r => PrimFloat.is_nan (residual field r) = true) (rows s) ->
  exists apCorrErr',
    clipIteration bbox ctrl nSigma s w
    = (Returned (emptySample, apCorrErr'), withFit w (callOf s ctrl))
    /\ PrimFloat.is_nan apCorrErr' = true
    /\ PrimFloat.is_nan (PrimFloat.mul nSigma apCorrErr') = true.
Proof.
  intros Hwf Hfit Hex.
  assert (Hnan : PrimFloat.is_nan (rms (residuals field s)) = true).
  { apply rms_nan. rewrite (residuals_rows _ _ Hwf). apply Exists_fmap. exact Hex. }
  exists (rms (residuals field s)). split; [|split; [exact Hnan | apply mul_nan_r, Hnan]].
  unfold clipIteration. rewrite (bind_step _ _ _ _ _ (callFit_returned _ _ _ _ _ Hfit)).
  unfold ret. fold (clipped field nSigma s).
  rewrite (clipped_rows_nil _ _ _ Hwf Hnan). reflexivity.
Qed.

Lemma clipIteration_empty (bbox : BBox) (ctrl : Control) (nSigma : float) (w : World)
    (field0 : Field) :
  fit bbox [] [] [] ctrl = Some field0 ->
  clipIteration bbox ctrl nSigma emptySample w
  = (Returned (emptySample, rms []), withFit w (callOf emptySample ctrl)).
Proof.
  intros Hfit. unfold clipIteration.
  rewrite (bind_step _ _ _ _ _ (callFit_returned bbox emptySample ctrl w field0 Hfit)).
  reflexivity.
Qed.

Lemma clipLoop_empty (bbox : BBox) (ctrl : Control) (nSigma : float) (field0 : Field) n :
  fit bbox [] [] [] ctrl = Some field0 ->
  forall e w,
    exists w',
      clipLoop n bbox ctrl nSigma emptySample e w
      = (Returned (emptySample, match n with O => e | S _ => Some (rms []) end), w')
      /\ catalog w' = catalog w.
Proof.
  intros Hfit. induction n as [|n IH]; intros e w.
  - exists w. split; reflexivity.
  - cbn [clipLoop]. rewrite (bind_step _ _ _ _ _ (clipIteration_empty _ _ _ _ _ Hfit)).
    cbn [fst snd]. destruct (IH (Some (rms [])) (withFit w (callOf emptySample ctrl)))
      as (w' & Hrun & Hcat).
    exists w'. rewrite Hrun. split; [destruct n; reflexivity | exact Hcat].
Qed.

(** X4. Emptiness is final.  When a pass meets a NaN residual (or starts
    from no point) and the fitter accepts empty arrays, every later pass
    runs on no point, the loop ends with no index and with [apCorrErr] NaN
    (the mean of an empty array), however many passes follow. *)
Theorem X4_empty_set_stays_empty (bbox : BBox) (ctrl : Control) (nSigma : float)
    (s : FitSample) (e : option float) (w : World) (field field0 : Field) (n : nat) :
  wellFormed s ->
  fit bbox (x s) (y s) (apCorrData s) ctrl = Some field ->
  fit bbox [] [] [] ctrl = Some field0 ->
  Exists (fun r => PrimFloat.is_nan (residual field r) = true) (rows s) \/ x s = [] ->
  exists apCorrErr' w',
    clipLoop (S n) bbox ctrl nSigma s e w
    = (Returned (emptySample, Some apCorrErr'), w')
    /\ PrimFloat.is_nan apCorrErr' = true
    /\ catalog w' = catalog w.
Proof.
  intros Hwf Hfit Hfit0 Hcase.
  assert (Hfirst : exists e1,
    clipIteration bbox ctrl nSigma s w
    = (Returned (emptySample, e1), withFit w (callOf s ctrl))
    /\ PrimFloat.is_nan e1 = true).
  { destruct Hcase as [Hex | Hnil].
    - assert (Hnan : PrimFloat.is_nan (rms (residuals field s)) = true).
      { apply rms_nan. rewrite (residuals_rows _ _ Hwf). apply Exists_fmap. exact Hex. }
      exists (rms (residuals field s)). split; [|exact Hnan].
      unfold clipIteration. rewrite (bind_step _ _ _ _ _ (callFit_returned _ _ _ _ _ Hfit)).
      unfold ret. fold (clipped field nSigma s).
      rewrite (clipped_rows_nil _ _ _ Hwf Hnan). reflexivity.
    - rewrite (wellFormed_empty s Hwf Hnil). exists (rms []).
      split; [apply (clipIteration_empty _ _ _ _ field0 Hfit0) | apply rms_empty]. }
  destruct Hfirst as (e1 & Hrun1 & Hnan1).
  cbn [clipLoop]. rewrite (bind_step _ _ _ _ _ Hrun1). cbn [fst snd].
  destruct (clipLoop_empty bbox ctrl nSigma field0 n Hfit0 (Some e1)
              (withFit w (callOf s ctrl))) as (w' & Hrun & Hcat).
  rewrite Hrun. destruct n.
  - exists e1, w'. split; [reflexivity | split; [exact Hnan1 | exact Hcat]].
  - exists (rms []), w'. split; [reflexivity | split; [apply rms_empty | exact Hcat]].
Qed.

(** *** The trace of fitter calls of a field *)

Lemma callOf_even (s : FitSample) (ctrl : Control) : wellFormed s -> evenCall (callOf s ctrl).
Proof. intros (Hy & Hd & _). split; assumption. Qed.

Lemma clipLoop_trace n bbox ctrl nSigma : forall s e w s' e' w',
  clipLoop n bbox ctrl nSigma s e w = (Returned (s', e'), w') ->
  wellFormed s ->
  exists calls,
    fitCalls w' = fitCalls w ++ calls
    /\ length calls = n
    /\ Forall (fun c => fit_ctrl c = ctrl /\ evenCall c
                        /\ (length (x s') <= sizeOf c <= length (x s))%nat) calls
    /\ (forall c, calls !! 0%nat = Some c -> sizeOf c = length (x s))
    /\ (forall i j c c', (i <= j)%nat -> calls !! i = Some c -> calls !! j = Some c' ->
          (sizeOf c' <= sizeOf c)%nat).
Proof.
  induction n as [|n IH]; intros s e w s' e' w' Hrun Hwf.
  - cbn in Hrun. unfold ret in Hrun. inversion Hrun; subst; clear Hrun.
    exists []. rewrite app_nil_r. split; [reflexivity|]. split; [reflexivity|].
    split; [constructor|]. split; [intros c Hc; discriminate|].
    intros i j c c' _ Hc. destruct i; discriminate.
  - cbn [clipLoop] in Hrun. bind_inv Hrun. destruct a as [s1 e1].
    apply clipIteration_inv in Hm. destruct Hm as (field & Hfit & -> & -> & ->).
    cbn [fst snd] in Hrun.
    assert (Hwf1 : wellFormed (clipped field nSigma s)) by (apply clip_wellFormed, Hwf).
    assert (Hle1 : (length (x (clipped field nSigma s)) <= length (x s))%nat).
    { rewrite <- (rows_length _ Hwf1), <- (rows_length _ Hwf). apply sublist_length.
      unfold clipped. rewrite rows_clip. apply mask_sublist. }
    assert (Hle' : (length (x s') <= length (x (clipped field nSigma s)))%nat).
    { destruct (clipLoop_inv _ _ _ _ _ _ _ _ _ _ Hrun) as (_ & _ & _ & Hwf' & _ & _).
      destruct (Hwf' Hwf1) as [Hwfs' Hsub].
      rewrite <- (rows_length _ Hwfs'), <- (rows_length _ Hwf1). apply sublist_length, Hsub. }
    destruct (IH _ _ _ _ _ _ Hrun Hwf1) as (calls & Hcalls & Hlen & Hall & Hhead & Hmono).
    exists (callOf s ctrl :: calls).
    split; [rewrite Hcalls; cbn; rewrite <- app_assoc; reflexivity|].
    split; [cbn; lia|]. split; [|split].
    + constructor.
      * split; [reflexivity|]. split; [apply callOf_even, Hwf|]. unfold sizeOf. cbn. lia.
      * eapply Forall_impl; [exact Hall|]. intros c (Hc & Heven & Hsize).
        split; [exact Hc|]. split; [exact Heven | lia].
    + intros c [= <-]. reflexivity.
    + intros [|i] [|j] c c' Hij Hc Hc'; cbn in Hc, Hc'.
      * injection Hc as <-. injection Hc' as <-. lia.
      * injection Hc as <-. unfold sizeOf at 2. cbn.
        apply (proj1 (Forall_lookup _ _) Hall) in Hc'. lia.
      * lia.
      * eapply Hmono; [|exact Hc | exact Hc']. lia.
Qed.

(** X7. All the fitter calls of a field that completes use one control:
    the one the order loop returned, whose orders are not above the
    configured ones; each call gets three arrays of one length; the first
    call gets [len(subset2)] points and no call gets more points than an
    earlier one.  The orders are not adapted again as clipping shrinks the
    sample. *)
Theorem X7_fit_calls_of_a_field (task : MeasureApCorrTask BBox) (bbox : BBox)
    (subset1 : list nat) (name : string) (keys : FluxKeys) (loc loc' : Locals Field)
    (w w' : World) :
  correctField task bbox subset1 name keys loc w = (Returned loc', w') ->
  insufficient w task keys subset1 = false ->
  exists ctrl calls,
    fitCalls w' = fitCalls w ++ calls
    /\ orderX ctrl <= orderX (fitConfig (config task))
    /\ orderY ctrl <= orderY (fitConfig (config task))
    /\ triangular ctrl = triangular (fitConfig (config task))
    /\ Forall (fun c => fit_ctrl c = ctrl /\ evenCall c) calls
    /\ (forall c, calls !! 0%nat = Some c ->
          sizeOf c = length (narrow (catalog w) keys subset1))
    /\ (forall i j c c', (i <= j)%nat -> calls !! i = Some c -> calls !! j = Some c' ->
          (sizeOf c' <= sizeOf c)%nat).
Proof.
  intros Hrun Hcheck.
  destruct (correctField_returned _ _ _ _ _ _ _ _ _ Hrun Hcheck)
    as (ctrl & s & e & wLoop & field & Hadapt & Hloop & _ & _ & ->).
  destruct (adaptOrder_Some _ _ _ _ _ Hadapt) as (_ & Hx & Hy & Htri).
  pose proof (fillArrays_wellFormed (catalog w) (refFluxKeys task) keys
                (narrow (catalog w) keys subset1)) as Hwf0.
  destruct (clipLoop_trace _ _ _ _ _ _ _ _ _ _ Hloop Hwf0)
    as (calls & Hcalls & Hlen & Hall & Hhead & Hmono).
  destruct (clipLoop_inv _ _ _ _ _ _ _ _ _ _ Hloop) as (_ & _ & _ & Hwf & _ & _).
  destruct (Hwf Hwf0) as [Hwfs Hsub].
  assert (Hlen0 : length (x (fillArrays (catalog w) (refFluxKeys task) keys
                     (narrow (catalog w) keys subset1)))
                  = length (narrow (catalog w) keys subset1))
    by (cbn; apply length_fmap).
  assert (Hles : (length (x s) <= length (narrow (catalog w) keys subset1))%nat).
  { rewrite <- Hlen0, <- (rows_length _ Hwfs), <- (rows_length _ Hwf0).
    apply sublist_length, Hsub. }
  exists ctrl, (calls ++ [callOf s ctrl]).
  split; [cbn; rewrite Hcalls, app_assoc; reflexivity|].
  split; [exact Hx|]. split; [exact Hy|]. split; [exact Htri|]. split; [|split].
  - apply Forall_app. split.
    + eapply Forall_impl; [exact Hall|]. intros c (Hc & Heven & _). split; assumption.
    + constructor; [|constructor]. split; [reflexivity | apply callOf_even, Hwfs].
  - intros c Hc. destruct calls as [|c0 calls].
    + cbn in Hc. injection Hc as <-. cbn in Hlen. unfold sizeOf. cbn.
      destruct (clipLoop_inv _ _ _ _ _ _ _ _ _ _ Hloop) as (_ & _ & _ & _ & Hzero & _).
      rewrite <- Hlen in Hzero. destruct (Hzero eq_refl) as [-> _]. exact Hlen0.
    + cbn in Hc. injection Hc as <-. rewrite (Hhead c0 eq_refl). exact Hlen0.
  - intros i j c c' Hij Hc Hc'.
    destruct (decide (j < length calls)%nat) as [Hj|Hj].
    + rewrite lookup_app_l in Hc by lia. rewrite lookup_app_l in Hc' by lia.
      exact (Hmono i j c c' Hij Hc Hc').
    + rewrite lookup_app_r in Hc' by lia.
      destruct (j - length calls)%nat as [|k] eqn:Hk; [|destruct k; discriminate].
      cbn in Hc'. injection Hc' as <-. unfold sizeOf at 1. cbn.
      destruct (decide (i < length calls)%nat) as [Hi|Hi].
      * rewrite lookup_app_l in Hc by lia.
        apply (proj1 (Forall_lookup _ _) Hall) in Hc. lia.
      * rewrite lookup_app_r in Hc by lia.
        destruct (i - length calls)%nat as [|k] eqn:Hk'; [|destruct k; discriminate].
        cbn in Hc. injection Hc as <-. unfold sizeOf. cbn. lia.
Qed.

(** X2. When the last pass of the loop removes no point, so that the
    terminal fit is called on the very arrays of the last in-loop fit, the
    error kept in the map is the RMS of the terminal fit over the final
    working set, the one the log reports. *)
Theorem X2_error_matches_terminal_fit_when_stable (task : MeasureApCorrTask BBox)
    (bbox : BBox) (subset1 : list nat) (name : string) (keys : FluxKeys)
    (loc loc' : Locals Field) (w w' : World) (front : list FitCall)
    (inLoop terminal : FitCall) :
  correctField task bbox subset1 name keys loc w = (Returned loc', w') ->
  insufficient w task keys subset1 = false ->
  0 < numIter (config task) ->
  fitCalls w' = front ++ [inLoop; terminal] ->
  inLoop = terminal ->
  exists field,
    apCorrMap loc' !! (name +:+ "_instFlux") = Some field
    /\ fit bbox (fit_x terminal) (fit_y terminal) (fit_data terminal) (fit_ctrl terminal)
       = Some field
    /\ apCorrMap loc' !! (name +:+ "_instFluxErr")
       = Some (fromCoefficients bbox [[finalFitRms field terminal]])
    /\ last (log w') = Some (InfoRms name (finalFitRms field terminal) (sizeOf terminal)).
Proof.
  intros Hrun Hcheck Hiter Htrace Hsame.
  destruct (correctField_returned _ _ _ _ _ _ _ _ _ Hrun Hcheck)
    as (ctrl & s & e & wLoop & field & _ & Hloop & Hfit & -> & ->).
  destruct (clipLoop_inv _ _ _ _ _ _ _ _ _ _ Hloop) as (_ & _ & _ & Hwf & _ & _).
  destruct (Hwf (fillArrays_wellFormed _ _ _ _)) as [Hwfs _].
  replace (Z.to_nat (numIter (config task)))
    with (S (Z.to_nat (numIter (config task) - 1))) in Hloop by lia.
  apply clipLoop_last in Hloop.
  destruct Hloop as (sPrev & ePrev & wPrev & fieldPrev & _ & _ & HfitPrev & He & _ & Hw).
  injection He as ->. subst wLoop. cbn [fitCalls withFit] in Htrace.
  replace (front ++ [inLoop; terminal]) with ((front ++ [inLoop]) ++ [terminal]) in Htrace
    by (rewrite <- app_assoc; reflexivity).
  apply app_inj_tail in Htrace. destruct Htrace as [Htrace Hterm].
  apply app_inj_tail in Htrace. destruct Htrace as [_ Hin].
  rewrite Hsame, <- Hterm in Hin. injection Hin as Hx Hy Hd.
  assert (Hfield : fieldPrev = field).
  { rewrite Hx, Hy, Hd, Hfit in HfitPrev. injection HfitPrev as ->. reflexivity. }
  subst fieldPrev. exists field. rewrite <- Hterm. cbn [fit_x fit_y fit_data fit_ctrl callOf].
  split; [|split; [exact Hfit | split]].
  - cbn [apCorrMap]. rewrite lookup_insert_ne, lookup_insert_eq; [reflexivity|].
    intros Heq. symmetry in Heq. exact (fluxName_not_fluxErrName _ _ Heq).
  - cbn [apCorrMap]. rewrite lookup_insert_eq. unfold finalFitRms, residuals.
    cbn [fit_x fit_y fit_data callOf]. rewrite Hx, Hy, Hd. reflexivity.
  - cbn [log]. rewrite last_snoc. unfold finalFitRms, sizeOf, residuals.
    cbn [fit_x fit_y fit_data callOf].
    destruct Hwfs as (_ & _ & Hi). rewrite Hi. reflexivity.
Qed.

(** X9. The line logged for a field that completes reports the terminal
    fit: its RMS is that of the surface kept in the map over the arrays of
    the last fitter call, and its count is the number of points of that
    call. *)
Theorem X9_log_reports_terminal_fit (task : MeasureApCorrTask BBox) (bbox : BBox)
    (subset1 : list nat) (name : string) (keys : FluxKeys) (loc loc' : Locals Field)
    (w w' : World) :
  correctField task bbox subset1 name keys loc w = (Returned loc', w') ->
  insufficient w task keys subset1 = false ->
  exists field terminal,
    apCorrMap loc' !! (name +:+ "_instFlux") = Some field
    /\ last (fitCalls w') = Some terminal
    /\ log w' = log w ++ [InfoRms name (finalFitRms field terminal) (sizeOf terminal)].
Proof.
  intros Hrun Hcheck.
  destruct (correctField_returned _ _ _ _ _ _ _ _ _ Hrun Hcheck)
    as (ctrl & s & e & wLoop & field & _ & Hloop & Hfit & -> & ->).
  destruct (clipLoop_inv _ _ _ _ _ _ _ _ _ _ Hloop) as (_ & _ & _ & Hwf & _ & _).
  destruct (Hwf (fillArrays_wellFormed _ _ _ _)) as [(_ & _ & Hi) _].
  exists field, (callOf s ctrl). split; [|split].
  - cbn [apCorrMap]. rewrite lookup_insert_ne, lookup_insert_eq; [reflexivity|].
    intros Heq. symmetry in Heq. exact (fluxName_not_fluxErrName _ _ Heq).
  - cbn [fitCalls]. apply last_snoc.
  - cbn [log]. unfold finalFitRms, sizeOf, residuals. cbn [fit_x fit_y fit_data callOf].
    rewrite Hi. reflexivity.
Qed.

(** *** What a returning run logged and fitted *)

Lemma correctField_effects task bbox subset1 name keys loc w loc' w' :
  correctField task bbox subset1 name keys loc w = (Returned loc', w') ->
  exists ev calls,
    log w' = log w ++ [ev] /\ eventField ev = Some name
    /\ fitCalls w' = fitCalls w ++ calls
    /\ length calls
       = (if isMeasured ev then S (Z.to_nat (numIter (config task))) else O)
    /\ isMeasured ev = negb (insufficient w task keys subset1).
Proof.
  intros Hrun. destruct (insufficient w task keys subset1) eqn:Hcheck.
  - rewrite (correctField_insufficient _ _ _ _ _ _ _ Hcheck) in Hrun.
    destruct (bool_decide _); [|discriminate]. inversion Hrun; subst; clear Hrun.
    eexists _, []. cbn. rewrite app_nil_r. repeat split; reflexivity.
  - destruct (correctField_returned _ _ _ _ _ _ _ _ _ Hrun Hcheck)
      as (ctrl & s & e & wLoop & field & _ & Hloop & _ & _ & ->).
    destruct (clipLoop_inv _ _ _ _ _ _ _ _ _ _ Hloop)
      as (_ & _ & (calls & Hcalls & Hlen) & _).
    eexists _, (calls ++ [callOf s ctrl]). cbn.
    split; [reflexivity|]. split; [reflexivity|].
    split; [rewrite Hcalls, app_assoc; reflexivity|].
    split; [rewrite length_app; cbn; lia | reflexivity].
Qed.

Lemma forFields_effects task bbox subset1 entries : forall loc w loc' w',
  forFields task bbox subset1 entries loc w = (Returned loc', w') ->
  exists events calls,
    log w' = log w ++ events
    /\ eventField <$> events = Some <$> entries.*1
    /\ fitCalls w' = fitCalls w ++ calls
    /\ length calls
       = (S (Z.to_nat (numIter (config task))) * length (filter (fun ev => Is_true (isMeasured ev)) events))%nat.
Proof.
  induction entries as [|[name keys] rest IH]; intros loc w loc' w' Hrun.
  - cbn in Hrun. unfold ret in Hrun. inversion Hrun; subst.
    exists [], []. rewrite !app_nil_r. cbn. repeat split; lia.
  - cbn [forFields] in Hrun. bind_inv Hrun. rename a into loc1.
    destruct (correctField_effects _ _ _ _ _ _ _ _ _ Hm)
      as (ev & calls1 & Hlog1 & Hname & Hcalls1 & Hlen1 & _).
    destruct (IH _ _ _ _ Hrun) as (events & calls & Hlog & Hnames & Hcalls & Hlen).
    exists (ev :: events), (calls1 ++ calls).
    split; [rewrite Hlog, Hlog1, <- app_assoc; reflexivity|].
    split; [cbn; rewrite Hname, Hnames; reflexivity|].
    split; [rewrite Hcalls, Hcalls1, <- app_assoc; reflexivity|].
    rewrite length_app, Hlen1, Hlen, filter_cons.
    destruct (isMeasured ev); cbn [Is_true].
    + destruct (decide True); [|tauto]. cbn [length]. lia.
    + destruct (decide False); [tauto|]. lia.
Qed.

(** X8. A run that returns has logged its opening line and then exactly one
    line per entry of [toCorrect], in the order of the dict, each about its
    field: a warning for a skipped field, the RMS line for a measured one.
    It has called the fitter max(numIter, 0) + 1 times for each measured
    field and not at all for a skipped one. *)
Theorem X8_one_log_line_per_field (task : MeasureApCorrTask BBox)
    (exposure : Exposure BBox) (w w' : World) (apCorr : gmap string Field) :
  run task exposure w = (Returned apCorr, w') ->
  exists events calls,
    log w' = log w ++ InfoMeasuring (length (toCorrect task)) :: events
    /\ eventField <$> events = Some <$> (toCorrect task).*1
    /\ length events = length (toCorrect task)
    /\ fitCalls w' = fitCalls w ++ calls
    /\ Z.of_nat (length calls)
       = (Z.max (numIter (config task)) 0 + 1)
         * Z.of_nat (length (filter (fun ev => Is_true (isMeasured ev)) events)).
Proof.
  intros Hrun. apply run_returned in Hrun. destruct Hrun as (loc' & Hloop & _).
  destruct (forFields_effects _ _ _ _ _ _ _ _ Hloop)
    as (events & calls & Hlog & Hnames & Hcalls & Hlen).
  exists events, calls. cbn [log fitCalls] in Hlog, Hcalls.
  split; [rewrite Hlog, <- app_assoc; reflexivity|]. split; [exact Hnames|].
  split; [|split; [exact Hcalls | rewrite Hlen; lia]].
  apply (f_equal length) in Hnames. rewrite !length_fmap in Hnames. exact Hnames.
Qed.

(** *** The entries of the map *)

Lemma measuredIn_insert (bbox : BBox) (name n : string) (m : gmap string Field)
    (field : Field) (e : float) :
  measuredIn bbox name m \/ n = name ->
  measuredIn bbox name
    (<[n +:+ "_instFluxErr" := fromCoefficients bbox [[e]]]>
       (<[n +:+ "_instFlux" := field]> m)).
Proof.
  intros Hcase. split.
  - rewrite lookup_insert_ne
      by (intros Heq; symmetry in Heq; exact (fluxName_not_fluxErrName _ _ Heq)).
    destruct (decide (n +:+ "_instFlux" = name +:+ "_instFlux")) as [->|Hne].
    + rewrite lookup_insert_eq. eexists; reflexivity.
    + rewrite lookup_insert_ne by exact Hne.
      destruct Hcase as [[Hflux _] | ->]; [exact Hflux | contradiction].
  - destruct (decide (n +:+ "_instFluxErr" = name +:+ "_instFluxErr")) as [->|Hne].
    + exists e. apply lookup_insert_eq.
    + rewrite lookup_insert_ne by exact Hne.
      rewrite lookup_insert_ne by (apply fluxName_not_fluxErrName).
      destruct Hcase as [[_ Herr] | ->]; [exact Herr | contradiction].
Qed.

Lemma forFields_present task bbox subset1 cat0 name entries : forall loc w loc' w',
  keyed entries ->
  sameMeasurements cat0 (catalog w) ->
  forFields task bbox subset1 entries loc w = (Returned loc', w') ->
  measuredIn bbox name (apCorrMap loc)
  \/ (name ∈ entries.*1
      /\ Z.of_nat (length (narrow cat0 (keysOf name) subset1)) - 1
         >= minDegreesOfFreedom (config task)) ->
  measuredIn bbox name (apCorrMap loc').
Proof.
  induction entries as [|[n keys] rest IH]; intros loc w loc' w' Hkeyed Hsame Hrun Hcase.
  - cbn in Hrun. unfold ret in Hrun. inversion Hrun; subst.
    destruct Hcase as [Hin | [Hin _]]; [exact Hin|]. cbn in Hin. inversion Hin.
  - cbn [forFields] in Hrun. bind_inv Hrun. rename a into loc1.
    inversion Hkeyed as [|? ? Hk Hrest]; subst. cbn in Hk. subst keys.
    pose proof (correctField_sameMeasurements task bbox subset1 n loc w) as Hstep.
    rewrite Hm in Hstep. cbn [snd] in Hstep.
    apply (IH loc1 w0 loc' w' Hrest (sameMeasurements_trans _ _ _ Hsame Hstep) Hrun).
    destruct (insufficient w task (keysOf n) subset1) eqn:Hcheck.
    + rewrite (correctField_insufficient _ _ _ _ _ _ _ Hcheck) in Hm.
      destruct (bool_decide _); inversion Hm; subst.
      destruct Hcase as [Hin | [Hin Hsuff]]; [left; exact Hin|].
      cbn in Hin. apply elem_of_cons in Hin. destruct Hin as [-> | Hin].
      * exfalso. unfold insufficient in Hcheck.
        rewrite (narrow_sameMeasurements _ _ _ _ Hsame) in Hcheck.
        apply Z.ltb_lt in Hcheck. lia.
      * right. split; assumption.
    + destruct (correctField_returned _ _ _ _ _ _ _ _ _ Hm Hcheck)
        as (ctrl & s & e & wLoop & field & _ & _ & _ & -> & _).
      cbn [apCorrMap].
      destruct Hcase as [Hin | [Hin Hsuff]];
        [left; apply measuredIn_insert; left; exact Hin|].
      cbn in Hin. apply elem_of_cons in Hin. destruct Hin as [-> | Hin].
      * left. apply measuredIn_insert. right. reflexivity.
      * right. split; assumption.
Qed.

Lemma forFields_domain task bbox subset1 entries : forall loc w loc' w' k,
  forFields task bbox subset1 entries loc w = (Returned loc', w') ->
  is_Some (apCorrMap loc' !! k) ->
  is_Some (apCorrMap loc !! k)
  \/ exists name, name ∈ entries.*1
       /\ (k = name +:+ "_instFlux" \/ k = name +:+ "_instFluxErr").
Proof.
  induction entries as [|[n keys] rest IH]; intros loc w loc' w' k Hrun Hk.
  - cbn in Hrun. unfold ret in Hrun. inversion Hrun; subst. left. exact Hk.
  - cbn [forFields] in Hrun. bind_inv Hrun. rename a into loc1.
    destruct (IH _ _ _ _ _ Hrun Hk) as [Hk1 | (name & Hin & Hname)].
    + destruct (insufficient w task keys subset1) eqn:Hcheck.
      * rewrite (correctField_insufficient _ _ _ _ _ _ _ Hcheck) in Hm.
        destruct (bool_decide _); inversion Hm; subst. left. exact Hk1.
      * destruct (correctField_returned _ _ _ _ _ _ _ _ _ Hm Hcheck)
          as (ctrl & s & e & wLoop & field & _ & _ & _ & -> & _).
        cbn [apCorrMap] in Hk1.
        destruct (decide (k = n +:+ "_instFluxErr")) as [->|Hne1];
          [right; exists n; split; [left | right; reflexivity]|].
        rewrite lookup_insert_ne in Hk1 by congruence.
        destruct (decide (k = n +:+ "_instFlux")) as [->|Hne2];
          [right; exists n; split; [left | left; reflexivity]|].
        rewrite lookup_insert_ne in Hk1 by congruence. left. exact Hk1.
    + right. exists name. split; [right; exact Hin | exact Hname].
Qed.

(** X10. In the map a run returns, for a task whose keys are built from its
    names: every field of [toCorrect] that has at least
    minDegreesOfFreedom + 1 usable sources has both its entries, the surface
    under "<name>_instFlux" and, under "<name>_instFluxErr", a surface built
    from a 1 by 1 coefficient matrix (a constant), whatever the order of the
    fitted surface. *)
Theorem X10_measured_fields_have_both_entries (task : MeasureApCorrTask BBox)
    (exposure : Exposure BBox) (w w' : World) (apCorr : gmap string Field)
    (name : string) (keys : FluxKeys) :
  run task exposure w = (Returned apCorr, w') ->
  keyed (toCorrect task) ->
  (name, keys) ∈ toCorrect task ->
  Z.of_nat (length (narrow (catalog w) keys
                           (selectSubset1 task (catalog w) exposure))) - 1
  >= minDegreesOfFreedom (config task) ->
  exists field apCorrErr',
    apCorr !! (name +:+ "_instFlux") = Some field
    /\ apCorr !! (name +:+ "_instFluxErr")
       = Some (fromCoefficients (getBBox exposure) [[apCorrErr']]).
Proof.
  intros Hrun Hkeyed Hentry Hsuff.
  apply run_returned in Hrun. destruct Hrun as (loc' & Hloop & ->).
  assert (Hk : keys = keysOf name)
    by exact (proj1 (Forall_forall _ _) Hkeyed (name, keys) Hentry).
  subst keys.
  assert (Hin : name ∈ (toCorrect task).*1).
  { apply list_elem_of_fmap. exists (name, keysOf name). split; [reflexivity | exact Hentry]. }
  destruct (forFields_present task (getBBox exposure) _ (catalog w) name _ _
              {| catalog := catalog w; log := _; fitCalls := _ |} _ _
              Hkeyed (sameMeasurements_refl _) Hloop (or_intror (conj Hin Hsuff)))
    as [[field Hfield] [e He]].
  exists field, e. split; assumption.
Qed.

(** X14. The map a run returns has no key but "<name>_instFlux" and
    "<name>_instFluxErr" for names of [toCorrect]. *)
Theorem X14_map_keys_come_from_toCorrect (task : MeasureApCorrTask BBox)
    (exposure : Exposure BBox) (w w' : World) (apCorr : gmap string Field)
    (k : string) :
  run task exposure w = (Returned apCorr, w') ->
  is_Some (apCorr !! k) ->
  exists name, name ∈ (toCorrect task).*1
    /\ (k = name +:+ "_instFlux" \/ k = name +:+ "_instFluxErr").
Proof.
  intros Hrun Hk. apply run_returned in Hrun. destruct Hrun as (loc' & Hloop & ->).
  destruct (forFields_domain _ _ _ _ _ _ _ _ _ Hloop Hk) as [Hempty | Hname];
    [|exact Hname].
  cbn in Hempty. rewrite lookup_empty in Hempty. destruct Hempty as [v Hv]. discriminate.
Qed.

(** *** The records that get marked *)

(** X11. Processing a field sets its "used" flag only on records of
    [subset2]: a record whose flag it turns on is one of [subset1] that
    passes the narrowing test.  On the paths that skip, raise or do not
    return, no flag is turned on. *)
Theorem X11_only_usable_records_are_marked (task : MeasureApCorrTask BBox) (bbox : BBox)
    (subset1 : list nat) (name : string) (keys : FluxKeys) (loc : Locals Field)
    (w : World) (j : nat) (r r' : SourceRecord) :
  catalog w !! j = Some r ->
  catalog (correctField task bbox subset1 name keys loc w).2 !! j = Some r' ->
  getFlag r (used keys) = false ->
  getFlag r' (used keys) = true ->
  j ∈ narrow (catalog w) keys subset1
  /\ j ∈ subset1
  /\ usable (catalog w) keys j = true
  /\ exists loc', (correctField task bbox subset1 name keys loc w).1 = Returned loc'.
Proof.
  intros Hj Hj' Hoff Hon.
  assert (Hsame : catalog (correctField task bbox subset1 name keys loc w).2 = catalog w ->
                  False).
  { intros Hcat. rewrite Hcat, Hj in Hj'. injection Hj' as <-. congruence. }
  destruct (insufficient w task keys subset1) eqn:Hcheck.
  - exfalso. apply Hsame. rewrite (correctField_insufficient _ _ _ _ _ _ _ Hcheck).
    destruct (bool_decide _); reflexivity.
  - destruct (correctField task bbox subset1 name keys loc w) as [out w'] eqn:Hrun.
    cbn [fst snd] in *.
    rewrite (correctField_sufficient _ _ _ _ _ _ _ Hcheck) in Hrun.
    destruct (adaptOrder _ _ _ _) as [ctrl|] eqn:Hadapt;
      [|exfalso; apply Hsame; inversion Hrun; reflexivity].
    match type of Hrun with fitField ?t ?b ?n ?k ?s2 ?c ?s0 ?l ?w0 = _ =>
      destruct (fitField_cases t b n k s2 c s0 l w0)
        as [[_ Hcat] | [[_ Hcat] | [loc' Hret]]] end;
      try (exfalso; apply Hsame; rewrite Hrun in Hcat; exact Hcat).
    rewrite Hrun in Hret. cbn [snd] in Hret. injection Hret as ->.
    apply fitField_returned in Hrun.
    destruct Hrun as (s & e & wLoop & field & _ & _ & _ & ->). cbn [catalog] in Hj'.
    destruct (fold_markOne_spec keys (narrow (catalog w) keys subset1) (indices s)
                (catalog w) j r Hj) as (r'' & Hr'' & _ & _ & _ & _ & Hused).
    rewrite Hj' in Hr''. injection Hr'' as <-.
    rewrite Hon, Hoff in Hused. cbn in Hused. symmetry in Hused.
    apply bool_decide_eq_true_1 in Hused. unfold survivors in Hused.
    apply list_elem_of_omap in Hused. destruct Hused as (i & _ & Hi).
    assert (Hin : j ∈ narrow (catalog w) keys subset1)
      by (apply list_elem_of_lookup; exists i; exact Hi).
    split; [exact Hin|]. rewrite narrow_filter in Hin.
    apply list_elem_of_filter in Hin. destruct Hin as [Hus Hsub].
    split; [exact Hsub|]. split; [apply Is_true_true, Hus | exists loc'; reflexivity].
Qed.

(** *** Runs that raise *)

Lemma run_unfold (task : MeasureApCorrTask BBox) (exposure : Exposure BBox) (w : World) :
  run task exposure w
  = match forFields task (getBBox exposure)
            (selectSubset1 task (catalog w) exposure) (toCorrect task)
            {| apCorrMap := ∅; apCorrErr := None |}
            {| catalog := catalog w;
               log := log w ++ [InfoMeasuring (length (toCorrect task))];
               fitCalls := fitCalls w |} with
    | (Returned loc', w') => (Returned (apCorrMap loc'), w')
    | (Raised e, w') => (Raised e, w')
    | (Diverged, w') => (Diverged, w')
    end.
Proof. reflexivity. Qed.

Lemma narrow_nil (cat : list SourceRecord) (keys : FluxKeys) : narrow cat keys [] = [].
Proof. reflexivity. Qed.

Lemma forFields_all_skipped task bbox entries : forall loc w,
  0 <= minDegreesOfFreedom (config task) ->
  Forall (fun entry => entry.1 ∈ allowFailure (config task)) entries ->
  forFields task bbox [] entries loc w
  = (Returned loc,
     {| catalog := catalog w;
        log := log w ++ ((fun entry => WarnUnable entry.1 0
                            (minDegreesOfFreedom (config task) + 1)) <$> entries);
        fitCalls := fitCalls w |}).
Proof.
  induction entries as [|[n keys] rest IH]; intros loc w Hm Hall.
  - cbn. rewrite app_nil_r. destruct w; reflexivity.
  - inversion Hall as [|? ? Hn Hrest]; subst. cbn in Hn. cbn [forFields].
    assert (Hcheck : insufficient w task keys [] = true)
      by (unfold insufficient; rewrite narrow_nil; apply Z.ltb_lt; cbn; lia).
    erewrite bind_step.
    2:{ rewrite (correctField_insufficient _ _ _ _ _ _ _ Hcheck).
        rewrite bool_decide_eq_true_2 by exact Hn. reflexivity. }
    rewrite (IH _ _ Hm Hrest). cbn. rewrite <- app_assoc. reflexivity.
Qed.

(** X12. When no selected star has a usable reference flux ([subset1] is
    empty) and minDegreesOfFreedom is not negative: a run whose first field
    is outside [allowFailure] raises for that field, with 0 sources against
    minDegreesOfFreedom + 1 required; a run whose fields are all in
    [allowFailure] returns the empty map after one warning per field.
    Either way no fit is made and no record is touched. *)
Theorem X12_run_without_usable_stars (task : MeasureApCorrTask BBox)
    (exposure : Exposure BBox) (w : World) :
  selectSubset1 task (catalog w) exposure = [] ->
  0 <= minDegreesOfFreedom (config task) ->
  let m := minDegreesOfFreedom (config task) in
  let opened := log w ++ [InfoMeasuring (length (toCorrect task))] in
  (forall name keys rest,
     toCorrect task = (name, keys) :: rest -> name ∉ allowFailure (config task) ->
     run task exposure w
     = (Raised (RuntimeError name 0 (m + 1)),
        {| catalog := catalog w; log := opened; fitCalls := fitCalls w |}))
  /\ (Forall (fun entry => entry.1 ∈ allowFailure (config task)) (toCorrect task) ->
      run task exposure w
      = (Returned ∅,
         {| catalog := catalog w;
            log := opened ++ ((fun entry => WarnUnable entry.1 0 (m + 1))
                              <$> toCorrect task);
            fitCalls := fitCalls w |})).
Proof.
  intros Hsel Hm m opened. rewrite !run_unfold, Hsel. split.
  - intros name keys rest Hentries Hnot. rewrite Hentries. cbn [forFields].
    unfold bind.
    match goal with |- context [correctField ?t ?b ?s ?n ?k ?l ?w0] =>
      assert (Hcheck : insufficient w0 t k [] = true)
        by (unfold insufficient; rewrite narrow_nil; apply Z.ltb_lt; cbn; lia);
      rewrite (correctField_insufficient t b [] n k l w0 Hcheck) end.
    rewrite bool_decide_eq_false_2 by exact Hnot. unfold opened. rewrite Hentries.
    reflexivity.
  - intros Hall. rewrite (forFields_all_skipped _ _ _ _ _ Hm Hall). reflexivity.
Qed.

Lemma forFields_raised task bbox subset1 entries : forall loc w name n required w',
  forFields task bbox subset1 entries loc w
  = (Raised (RuntimeError name n required), w') ->
  (name ∈ entries.*1)
  /\ (name ∉ allowFailure (config task))
  /\ required = minDegreesOfFreedom (config task) + 1
  /\ Z.of_nat n < required.
Proof.
  induction entries as [|[f keys] rest IH]; intros loc w name n required w' Hrun.
  - cbn in Hrun. discriminate.
  - cbn [forFields] in Hrun. unfold bind in Hrun.
    destruct (correctField task bbox subset1 f keys loc w) as [[loc1| e|] w1] eqn:Hstep.
    + destruct (IH _ _ _ _ _ _ Hrun) as (Hin & Hrest). split; [right; exact Hin | exact Hrest].
    + injection Hrun as -> ->.
      destruct (insufficient w task keys subset1) eqn:Hcheck.
      * rewrite (correctField_insufficient _ _ _ _ _ _ _ Hcheck) in Hstep.
        destruct (bool_decide (f ∈ allowFailure (config task))) eqn:Hallow;
          [discriminate|].
        injection Hstep as -> <- <- _. apply bool_decide_eq_false_1 in Hallow.
        split; [left|]. split; [exact Hallow|]. split; [reflexivity|].
        unfold insufficient in Hcheck. apply Z.ltb_lt in Hcheck. lia.
      * exfalso.
        apply (correctField_no_RuntimeError task bbox subset1 f keys loc w Hcheck name n required).
        rewrite Hstep. reflexivity.
    + discriminate.
Qed.

(** X13. When a run raises the error of the sample-size test, the error
    names a field of [toCorrect] that is not in [allowFailure], its required
    count is minDegreesOfFreedom + 1 and the count of sources it reports is
    below it; the records keep their positions and fluxes and the flags set
    for earlier fields stay set. *)
Theorem X13_runtime_error_is_coherent (task : MeasureApCorrTask BBox)
    (exposure : Exposure BBox) (w w' : World) (name : string) (n : nat) (required : Z) :
  run task exposure w = (Raised (RuntimeError name n required), w') ->
  (name ∈ (toCorrect task).*1)
  /\ (name ∉ allowFailure (config task))
  /\ required = minDegreesOfFreedom (config task) + 1
  /\ Z.of_nat n < required
  /\ frame (catalog w) (catalog w').
Proof.
  intros Hrun. pose proof (run_frame task exposure w) as Hframe.
  rewrite Hrun in Hframe. cbn [snd] in Hframe.
  rewrite run_unfold in Hrun.
  match type of Hrun with context [forFields ?t ?b ?s ?e ?l ?w0] =>
    destruct (forFields t b s e l w0) as [[loc1| e1|] w1] eqn:Hloop end;
    [discriminate | | discriminate].
  injection Hrun as -> ->.
  destruct (forFields_raised _ _ _ _ _ _ _ _ _ _ Hloop) as (H1 & H2 & H3 & H4).
  split; [exact H1|]. split; [exact H2|]. split; [exact H3|].
  split; [exact H4 | exact Hframe].
Qed.

End Further.

(** ** Instances of the further properties *)

Import Scenario.

Lemma X1_witness :
  exists record,
    outlierCat !! 0%nat = Some record
    /\ PrimFloat.eqb (getFloat record (flux (keysOf "f"))) PrimFloat.zero = false.
Proof.
  destruct (X1_subset2_records_divide_safely onePass outlierCat (mkExposure tt)
              (keysOf "f") 0%nat) as (record & Hrec & _ & _ & _ & _ & _ & _ & Hnz & _).
  - apply list_elem_of_lookup. exists 0%nat. vm_compute. reflexivity.
  - exists record. split; [exact Hrec | exact Hnz].
Defined.

Lemma X5_witness :
  adaptOrder 0 3 1 {| orderX := 1; orderY := 0; triangular := false |}
  = Some {| orderX := 1; orderY := 0; triangular := false |}.
Proof.
  exact (proj1 (@X5_order_adaptation_idempotent unit (list (list float)) api
                  5 0 3 1 {| orderX := 2; orderY := 1; triangular := false |}
                  {| orderX := 1; orderY := 0; triangular := false |} eq_refl)).
Defined.

Lemma X6_witness :
  correctField negativeOrders tt [0; 1]%nat "f" (keysOf "f") noLocals (world pairCat)
  = (Diverged, world pairCat).
Proof.
  exact (proj2 (proj2 (@X6_order_loop_diverges unit (list (list float)) api
                         negativeOrders tt [0; 1]%nat "f" (keysOf "f") noLocals
                         (world pairCat)
                         ltac:(cbn; lia) ltac:(cbn; lia) eq_refl eq_refl))).
Defined.

Lemma overflowSample_nan :
  Exists (fun r => PrimFloat.is_nan (residual [[PrimFloat.infinity]] r) = true)
         (rows overflowSample).
Proof. apply Exists_cons_hd. vm_compute. reflexivity. Qed.

Lemma X3_witness :
  exists apCorrErr',
    clipIteration tt order0 3%float overflowSample (world overflowCat)
    = (Returned (emptySample, apCorrErr'),
       withFit (world overflowCat) (callOf overflowSample order0))
    /\ PrimFloat.is_nan apCorrErr' = true.
Proof.
  destruct (@X3_nan_residual_empties_the_set unit (list (list float)) api
              tt order0 3%float overflowSample (world overflowCat)
              [[PrimFloat.infinity]] (fillArrays_wellFormed _ _ _ _) eq_refl
              overflowSample_nan) as (e & Hrun & Hnan & _).
  exists e. split; [exact Hrun | exact Hnan].
Defined.

Lemma X4_witness :
  exists apCorrErr' w',
    clipLoop 4 tt order0 3%float overflowSample None (world overflowCat)
    = (Returned (emptySample, Some apCorrErr'), w')
    /\ PrimFloat.is_nan apCorrErr' = true.
Proof.
  destruct (@X4_empty_set_stays_empty unit (list (list float)) api
              tt order0 3%float overflowSample None (world overflowCat)
              [[PrimFloat.infinity]] [[PrimFloat.nan]] 3%nat
              (fillArrays_wellFormed _ _ _ _) eq_refl eq_refl
              (or_introl overflowSample_nan)) as (e & w' & Hrun & Hnan & _).
  exists e, w'. split; [exact Hrun | exact Hnan].
Defined.

Lemma stableField_returned : stableField = (Returned stableLocals, stableField.2).
Proof. vm_compute. reflexivity. Qed.

Lemma stableField_trace : fitCalls stableField.2 = [fivePoints] ++ [fourPoints; fourPoints].
Proof. vm_compute. reflexivity. Qed.

Lemma X2_witness :
  exists field,
    apCorrMap stableLocals !! "f_instFlux" = Some field
    /\ apCorrMap stableLocals !! "f_instFluxErr" = Some [[finalFitRms field fourPoints]].
Proof.
  destruct (X2_error_matches_terminal_fit_when_stable twoPasses tt allStars "f"
              (keysOf "f") noLocals stableLocals (world outlierCat) stableField.2
              [fivePoints] fourPoints fourPoints
              stableField_returned eq_refl eq_refl stableField_trace eq_refl)
    as (field & Hflux & _ & Herr & _).
  exists field. split; [exact Hflux | exact Herr].
Defined.

Lemma X7_witness :
  exists ctrl calls,
    fitCalls outlierField.2 = calls
    /\ Forall (fun c => fit_ctrl c = ctrl /\ evenCall c) calls.
Proof.
  destruct (X7_fit_calls_of_a_field onePass tt allStars "f" (keysOf "f")
              noLocals outlierLocals (world outlierCat) outlierField.2
              outlierField_returned eq_refl)
    as (ctrl & calls & Hcalls & _ & _ & _ & Hall & _).
  exists ctrl, calls. split; [exact Hcalls | exact Hall].
Defined.

Lemma X9_witness :
  exists field terminal,
    last (fitCalls outlierField.2) = Some terminal
    /\ log outlierField.2 = [InfoRms "f" (finalFitRms field terminal) (sizeOf terminal)].
Proof.
  destruct (X9_log_reports_terminal_fit onePass tt allStars "f" (keysOf "f")
              noLocals outlierLocals (world outlierCat) outlierField.2
              outlierField_returned eq_refl)
    as (field & terminal & _ & Hlast & Hlog).
  exists field, terminal. split; [exact Hlast | exact Hlog].
Defined.

Lemma outlierRun_returned : outlierRun = (Returned outlierMap, outlierRun.2).
Proof. vm_compute. reflexivity. Qed.

Lemma X8_witness :
  exists events calls,
    log outlierRun.2 = InfoMeasuring 1 :: events
    /\ length events = 1%nat
    /\ fitCalls outlierRun.2 = calls.
Proof.
  destruct (X8_one_log_line_per_field onePass (mkExposure tt) (world outlierCat)
              outlierRun.2 outlierMap outlierRun_returned)
    as (events & calls & Hlog & _ & Hlen & Hcalls & _).
  exists events, calls. split; [exact Hlog|]. split; [exact Hlen | exact Hcalls].
Defined.

Lemma X10_witness :
  exists field apCorrErr',
    outlierMap !! "f_instFlux" = Some field
    /\ outlierMap !! "f_instFluxErr" = Some [[apCorrErr']].
Proof.
  apply (X10_measured_fields_have_both_entries onePass (mkExposure tt) (world outlierCat)
           outlierRun.2 outlierMap "f" (keysOf "f") outlierRun_returned).
  - repeat constructor.
  - left.
  - vm_compute. discriminate.
Defined.

Lemma X14_witness :
  exists name, name ∈ ["f"]
    /\ ("f_instFluxErr" = name +:+ "_instFlux" \/ "f_instFluxErr" = name +:+ "_instFluxErr").
Proof.
  apply (X14_map_keys_come_from_toCorrect onePass (mkExposure tt) (world outlierCat)
           outlierRun.2 outlierMap "f_instFluxErr" outlierRun_returned).
  vm_compute. eexists. reflexivity.
Defined.

Lemma firstMarked_lookup : catalog outlierField.2 !! 0%nat = Some firstMarked.
Proof. vm_compute. reflexivity. Qed.

Lemma firstMarked_used : getFlag firstMarked (used (keysOf "f")) = true.
Proof. vm_compute. reflexivity. Qed.

Lemma X11_witness :
  (0%nat ∈ allStars) /\ usable outlierCat (keysOf "f") 0 = true.
Proof.
  destruct (X11_only_usable_records_are_marked onePass tt allStars "f" (keysOf "f")
              noLocals (world outlierCat) 0%nat (star 0 0 2 2) firstMarked
              eq_refl firstMarked_lookup eq_refl firstMarked_used)
    as (_ & Hin & Husable & _).
  split; [exact Hin | exact Husable].
Defined.

Lemma X12_witness :
  run onePass (mkExposure tt) (world [])
  = (Raised (RuntimeError "f" 0 2),
     {| catalog := []; log := [InfoMeasuring 1]; fitCalls := [] |}).
Proof.
  refine (proj1 (X12_run_without_usable_stars onePass (mkExposure tt) (world [])
                   eq_refl ltac:(cbn; lia)) "f" (keysOf "f") [] eq_refl _).
  vm_compute. intros Hin. inversion Hin.
Defined.

Lemma singleRun_raised :
  run onePass (mkExposure tt) (world singleCat)
  = (Raised (RuntimeError "f" 1 2), (run onePass (mkExposure tt) (world singleCat)).2).
Proof. vm_compute. reflexivity. Qed.

Lemma X13_witness :
  ("f" ∈ ["f"]) /\ 2 = minDegreesOfFreedom (config onePass) + 1 /\ Z.of_nat 1 < 2.
Proof.
  destruct (X13_runtime_error_is_coherent onePass (mkExposure tt) (world singleCat)
              _ "f" 1 2 singleRun_raised) as (Hin & _ & Hreq & Hlt & _).
  split; [exact Hin|]. split; [exact Hreq | exact Hlt].
Defined.

(** A run with the default four passes at 3 sigma on [overflowCat]: the
    first pass drops both stars, the error kept is NaN and no record is
    marked. *)
Example overflow_poisons_the_run :
  let r := run (task (cfg 4 3%float [])) (mkExposure tt) (world overflowCat) in
  (exists apCorr, r.1 = Returned apCorr
     /\ apCorr !! "f_instFluxErr" = Some [[PrimFloat.nan]])
  /\ (fun record => getFlag record (used (keysOf "f"))) <$> catalog r.2 = [false; false]
  /\ sizeOf <$> fitCalls r.2 = [2; 0; 0; 0; 0]%nat.
Proof.
  split; [eexists; split; vm_compute; reflexivity|].
  split; vm_compute; reflexivity.
Qed.
